(** * SAOL dictionary pipeline: a shallow embedding and its properties

    The repository holds three Go programs:

    - [clean_saol_json.go] (the "clean" stage): streams the JSON array
      [saol_entries.json] of [{"html": ...}] entries through a worker pool,
      keeps the inner HTML of the first [div.article] of each entry and
      writes a map [outputKey -> html];
    - the "flatten" stage (the second [package main], with [LemmaOutput]):
      the same pipeline over the same input, but every [div.lemma] below the
      article becomes one output entry [{html, familyID}], written to
      [flattened_lemmas.json];
    - the "category" stage ([FilterLemmasByOrdklass], [parseSubstantiv],
      [parseVerbForms], [parseAdjektiv], [saveVerbsJSON],
      [saveAdjectivesJSON]): reads [flattened_lemmas.json], walks the
      inflection table of each lemma and writes one JSON file per saved
      word class.

    Files, the JSON syntax, the HTML parser and the HTML renderer are
    outside: a program is embedded from the decoded input to the value it
    hands to the encoder; [Stream] adds the input that the decoder cannot
    read to its end.  Part I embeds the code; Part II states and proves its
    properties. *)

From Stdlib Require Import ZArith Lia Ascii.
From stdpp Require Import base option list strings gmap sorting.

Local Open Scope Z_scope.

(** ** Go's built-in [int], [error] and multiple return values *)

Module GoInt.

(** [int] is a 64-bit two's-complement integer on the platforms the programs
    are built for; arithmetic wraps around silently. *)
Definition intSize : Z := 64.
Definition minInt : Z := - 2 ^ (intSize - 1).
Definition maxInt : Z := 2 ^ (intSize - 1) - 1.

Definition wrap (z : Z) : Z := (z - minInt) mod 2 ^ intSize + minInt.

(** [i++] and [i + 1] *)
Definition incr (i : Z) : Z := wrap (i + 1).

End GoInt.

(** A Go [error] value is represented by its message. *)
Definition error : Type := string.

(** A call returning [(T, error)]. *)
Inductive result (T : Type) : Type :=
| Ok (v : T)
| Err (e : error).
Arguments Ok {T} v.
Arguments Err {T} e.

(** [fmt.Errorf("msg: %w", err)] *)
Definition Errorf (msg : string) (e : error) : error := msg +:+ ": " +:+ e.

(** ** Package [strings]

    Go strings are byte sequences; [string] here is a list of 8-bit
    characters, and literals are their UTF-8 bytes.  White space is
    [unicode.IsSpace]: the six ASCII blanks, U+0085, U+00A0, U+1680,
    U+2000..U+200A, U+2028, U+2029, U+202F, U+205F and U+3000, recognised by
    their UTF-8 encodings. *)

Module GoStrings.

Definition byte (c : ascii) : N := N_of_ascii c.

(** the [asciiSpace] table: tab, newline, vertical tab, form feed, carriage
    return, space *)
Definition asciiSpace (c : ascii) : bool :=
  ((9 <=? byte c) && (byte c <=? 13) || (byte c =? 32))%N.

(** two-byte white space: U+0085 (C2 85) and U+00A0 (C2 A0) *)
Definition space2 (a b : ascii) : bool :=
  ((byte a =? 194) && ((byte b =? 133) || (byte b =? 160)))%N.

(** three-byte white space: U+1680 (E1 9A 80), U+2000..U+200A (E2 80 80..8A),
    U+2028, U+2029 (E2 80 A8, A9), U+202F (E2 80 AF), U+205F (E2 81 9F),
    U+3000 (E3 80 80) *)
Definition space3 (a b c : ascii) : bool :=
  ((byte a =? 225) && (byte b =? 154) && (byte c =? 128)
   || (byte a =? 226) && (byte b =? 128) &&
        ((128 <=? byte c) && (byte c <=? 138)
         || (byte c =? 168) || (byte c =? 169) || (byte c =? 175))
   || (byte a =? 226) && (byte b =? 129) && (byte c =? 159)
   || (byte a =? 227) && (byte b =? 128) && (byte c =? 128))%N.

(** Strip white-space runes from the front.  [w2] and [w3] say which two and
    three byte sequences are white space, so that the same loop serves the
    reversed string. *)
Fixpoint trimFront (w2 : ascii → ascii → bool) (w3 : ascii → ascii → ascii → bool)
    (s : string) : string :=
  match s with
  | EmptyString => s
  | String a r1 =>
      if asciiSpace a then trimFront w2 w3 r1
      else
        match r1 with
        | EmptyString => s
        | String b r2 =>
            if w2 a b then trimFront w2 w3 r2
            else
              match r2 with
              | EmptyString => s
              | String c r3 => if w3 a b c then trimFront w2 w3 r3 else s
              end
        end
  end.

Definition TrimLeftSpace (s : string) : string := trimFront space2 space3 s.

Definition TrimRightSpace (s : string) : string :=
  String.rev
    (trimFront (λ b a, space2 a b) (λ c b a, space3 a b c) (String.rev s)).

(** [strings.TrimSpace] *)
Definition TrimSpace (s : string) : string := TrimRightSpace (TrimLeftSpace s).

(** [strings.Fields]: the maximal runs of non-white-space bytes.  [cur] holds
    the field being read, last byte first. *)
Definition flush (cur : string) : list string :=
  match cur with
  | EmptyString => []
  | _ => [String.rev cur]
  end.

Fixpoint fieldsFrom (cur : string) (s : string) : list string :=
  match s with
  | EmptyString => flush cur
  | String a r1 =>
      if asciiSpace a then flush cur ++ fieldsFrom "" r1
      else
        match r1 with
        | EmptyString => fieldsFrom (String a cur) r1
        | String b r2 =>
            if space2 a b then flush cur ++ fieldsFrom "" r2
            else
              match r2 with
              | EmptyString => fieldsFrom (String a cur) r1
              | String c r3 =>
                  if space3 a b c then flush cur ++ fieldsFrom "" r3
                  else fieldsFrom (String a cur) r1
              end
        end
  end.

Definition Fields (s : string) : list string := fieldsFrom "" s.

(** [strings.Cut] for a one-byte separator: the text before and after the
    first occurrence of [sep]. *)
Fixpoint cut (sep : ascii) (s : string) : option (string * string) :=
  match s with
  | EmptyString => None
  | String a r =>
      if Ascii.eqb a sep then Some (EmptyString, r)
      else
        match cut sep r with
        | Some (before, after) => Some (String a before, after)
        | None => None
        end
  end.

(** [strings.SplitN(s, sep, 2)] for a one-byte separator *)
Definition SplitN2 (s : string) (sep : ascii) : list string :=
  match cut sep s with
  | Some (before, after) => [before; after]
  | None => [s]
  end.

(** [strings.LastIndex(s, sep)] for a one-byte separator: the byte offset of
    the last occurrence, or -1. *)
Fixpoint LastIndex (s : string) (sep : ascii) : Z :=
  match s with
  | EmptyString => -1
  | String a r =>
      let i := LastIndex r sep in
      if 0 <=? i then i + 1
      else if Ascii.eqb a sep then 0 else -1
  end.

(** slice expressions [s[:hi]] and [s[lo:]] *)
Fixpoint takeBytes (n : nat) (s : string) : string :=
  match n, s with
  | S n', String a r => String a (takeBytes n' r)
  | _, _ => EmptyString
  end.

Fixpoint dropBytes (n : nat) (s : string) : string :=
  match n, s with
  | S n', String _ r => dropBytes n' r
  | _, _ => s
  end.

(** Offsets into a string held in memory are far below [GoInt.maxInt]; the
    index arithmetic on them is written without [GoInt.wrap]. *)
Definition sliceTo (s : string) (hi : Z) : string := takeBytes (Z.to_nat hi) s.
Definition sliceFrom (s : string) (lo : Z) : string := dropBytes (Z.to_nat lo) s.

End GoStrings.

(** ** Package [goquery]: the traversable node tree

    The HTML parser and renderer are external; what the programs use of a
    parsed document is the tree of element and text nodes, the CSS selectors
    [div.article], [div.lemma], [.ordklass], [.tabell tr], [th.ordformth],
    [i], [td], and the selection operations [Find], [Length], [Eq], [First],
    [Text], [Each] and [Html]. *)

Module goquery.

#[warnings="-register-all"]
Inductive Node : Type :=
| DocumentNode (children : list Node)
| ElementNode (tag : string) (class : list string) (children : list Node)
| TextNode (data : string).

Definition childNodes (n : Node) : list Node :=
  match n with
  | DocumentNode cs | ElementNode _ _ cs => cs
  | TextNode _ => []
  end.

(** A compound selector: an optional tag name and an optional class. *)
Record Compound : Type := { ctag : option string; cclass : option string }.

(** [c] alone, or [a d] with the descendant combinator. *)
Inductive Selector : Type :=
| Simple (c : Compound)
| Descendant (a d : Compound).

Definition matchCompound (c : Compound) (n : Node) : bool :=
  match n with
  | ElementNode tag class _ =>
      match ctag c with Some t => bool_decide (tag = t) | None => true end
      && match cclass c with Some k => bool_decide (k ∈ class) | None => true end
  | _ => false
  end.

(** A node of a selection together with its ancestors, nearest first (the
    parent pointers of [html.Node]). *)
Record Located : Type := { ancestors : list Node; node : Node }.

Definition Selection : Type := list Located.

Definition matches (sel : Selector) (x : Located) : bool :=
  match sel with
  | Simple c => matchCompound c (node x)
  | Descendant a d =>
      matchCompound d (node x) && existsb (matchCompound a) (ancestors x)
  end.

(** The matching nodes among [n] and its descendants, in document order. *)
Fixpoint matchAll (sel : Selector) (anc : list Node) (n : Node) : list Located :=
  let here := {| ancestors := anc; node := n |} in
  (if matches sel here then [here] else [])
  ++ match n with
     | DocumentNode cs | ElementNode _ _ cs =>
         (fix go (l : list Node) : list Located :=
            match l with
            | [] => []
            | c :: l' => matchAll sel (n :: anc) c ++ go l'
            end) cs
     | TextNode _ => []
     end.

(** [s.Find(sel)]: the matching descendants of the nodes of [s].  Every call
    in the programs is on a selection of at most one node, where goquery's
    removal of duplicates has nothing to remove. *)
Definition Find (s : Selection) (sel : Selector) : Selection :=
  x ← s; c ← childNodes (node x); matchAll sel (node x :: ancestors x) c.

Definition Length (s : Selection) : Z := Z.of_nat (length s).

(** [s.Eq(index)]; a negative index counts from the end *)
Definition Eq (s : Selection) (index : Z) : Selection :=
  let index := if index <? 0 then index + Length s else index in
  if (Length s <=? index) || (index <? 0) then []
  else match s !! Z.to_nat index with Some x => [x] | None => [] end.

Definition First (s : Selection) : Selection := Eq s 0.

Fixpoint nodeText (n : Node) : string :=
  match n with
  | TextNode data => data
  | DocumentNode cs | ElementNode _ _ cs =>
      (fix go (l : list Node) : string :=
         match l with
         | [] => ""
         | c :: l' => nodeText c +:+ go l'
         end) cs
  end.

(** [s.Text()]: the text of every node of the selection, concatenated. *)
Fixpoint Text (s : Selection) : string :=
  match s with
  | [] => ""
  | x :: s' => nodeText (node x) +:+ Text s'
  end.

(** [s.Each(f)]: call [f] on each node in turn, as a selection of its own.
    The callbacks of the programs ignore the position argument; [st] is the
    state of the variables they capture. *)
Definition Each {St : Type} (s : Selection) (f : Selection → St → St) (st : St) : St :=
  foldl (λ st x, f [x] st) st s.

(** [s.Html()]: the rendering of the children of the first node. *)
Fixpoint renderAll (Render : Node → result string) (l : list Node) : result string :=
  match l with
  | [] => Ok ""
  | c :: l' =>
      match Render c with
      | Err e => Err e
      | Ok h =>
          match renderAll Render l' with
          | Err e => Err e
          | Ok t => Ok (h +:+ t)
          end
      end
  end.

Definition Html (Render : Node → result string) (s : Selection) : result string :=
  match s with
  | [] => Ok ""
  | x :: _ => renderAll Render (childNodes (node x))
  end.

(** [doc.Find], [doc.Selection]: the selection holding the document node *)
Definition document (doc : Node) : Selection := [{| ancestors := []; node := doc |}].

(** The selectors that occur in the programs. *)
Definition tag (t : string) : Compound := {| ctag := Some t; cclass := None |}.
Definition class (k : string) : Compound := {| ctag := None; cclass := Some k |}.
Definition tagClass (t k : string) : Compound := {| ctag := Some t; cclass := Some k |}.

Definition div_article : Selector := Simple (tagClass "div" "article").
Definition div_lemma : Selector := Simple (tagClass "div" "lemma").
Definition dot_ordklass : Selector := Simple (class "ordklass").
Definition tabell_tr : Selector := Descendant (class "tabell") (tag "tr").
Definition th_ordformth : Selector := Simple (tagClass "th" "ordformth").
Definition sel_i : Selector := Simple (tag "i").
Definition sel_td : Selector := Simple (tag "td").

End goquery.

(** ** The category stage: inflection tables to per-class JSON

    [parseSubstantiv], [parseVerbForms] and [parseAdjektiv] walk the rows
    [.tabell tr] of one lemma.  Each callback closes over the slice of tagged
    strings built so far and the label of the last header row. *)

Module CategoryStage.
Import GoStrings goquery.

Definition rowState : Type := (list string * string)%type.

(** the callback of [parseSubstantiv] *)
Definition substantivRow (s : Selection) (st : rowState) : rowState :=
  let '(nouns, currentCase) := st in
  let th := Find s th_ordformth in
  if Length th =? 1 then (nouns, TrimSpace (Text (Find th sel_i)))
  else
    let tds := Find s sel_td in
    if negb (Length tds =? 2) then (nouns, currentCase)
    else
      let nounText := TrimSpace (Text (Eq tds 0)) in
      let ledText := TrimSpace (Text (Eq tds 1)) in
      let parts := Fields ledText in
      let ledWord := match parts with p0 :: _ => p0 | [] => "" end in
      let entry := nounText +:+ "-" +:+ ledWord +:+ "-" +:+ currentCase in
      (nouns ++ [entry], currentCase).

Definition parseSubstantiv (doc : Node) : list string :=
  fst (Each (Find (document doc) tabell_tr) substantivRow ([], "")).

(** the callback of [parseVerbForms]; entries read
    "form-tense voice-Section" *)
Definition verbRow (s : Selection) (st : rowState) : rowState :=
  let '(forms, currentSection) := st in
  let th := Find s th_ordformth in
  if Length th =? 1 then (forms, TrimSpace (Text (Find th sel_i)))
  else
    let tds := Find s sel_td in
    if Length tds =? 0 then (forms, currentSection)
    else
      let formText := TrimSpace (Text (Eq tds 0)) in
      let tenseVoice :=
        if 1 <? Length tds then TrimSpace (Text (Eq tds 1)) else "" in
      let entry := formText in
      let entry :=
        if negb (String.eqb tenseVoice "") then entry +:+ "-" +:+ tenseVoice
        else entry in
      let entry := entry +:+ "-" +:+ currentSection in
      (forms ++ [entry], currentSection).

Definition parseVerbForms (doc : Node) : list string :=
  fst (Each (Find (document doc) tabell_tr) verbRow ([], "")).

(** the callback of [parseAdjektiv] *)
Definition adjektivRow (s : Selection) (st : rowState) : rowState :=
  let '(entries, currentDegree) := st in
  let th := Find s th_ordformth in
  if Length th =? 1 then (entries, TrimSpace (Text (Find th sel_i)))
  else
    let tds := Find s sel_td in
    if negb (Length tds =? 1) then (entries, currentDegree)
    else
      let raw := TrimSpace (Text (Eq tds 0)) in
      let parts := SplitN2 raw "+" in
      let form := TrimSpace (match parts with p0 :: _ => p0 | [] => "" end) in
      let entry := form +:+ "-" +:+ currentDegree in
      (entries ++ [entry], currentDegree).

Definition parseAdjektiv (doc : Node) : list string :=
  fst (Each (Find (document doc) tabell_tr) adjektivRow ([], "")).

(** [verbJSON] (local to [saveVerbsJSON]) and [AdjectiveEntry]: the schema
    [{class, forms}] of the output files.  Both structs name their fields
    [Class] and [Forms]; those of [verbJSON] are [vClass] and [vForms]
    here. *)
Record verbJSON : Type :=
  { vClass : string; vForms : gmap string (list string) }.

Record AdjectiveEntry : Type :=
  { Class : string; Forms : gmap string (list string) }.

(** The fold that both save functions run over the tagged strings of one
    lemma: split at the last "-", append the front part to the bucket of the
    label behind it when that bucket exists. *)
Definition bucket (forms : gmap string (list string)) (tagged : string)
    : gmap string (list string) :=
  let last := LastIndex tagged "-" in
  if last <? 0 then forms
  else
    let section := sliceFrom tagged (last + 1) in
    let fv := sliceTo tagged last in
    match forms !! section with
    | Some l => <[section := l ++ [fv]]> forms
    | None => forms
    end.

Definition verbEntry (raw : list string) : verbJSON :=
  let entry :=
    {| vClass := "verb";
       vForms := {[ "Finita former" := []; "Infinita former" := [];
                    "Presens particip" := []; "Perfekt particip" := [] ]} |} in
  {| vClass := vClass entry; vForms := foldl bucket (vForms entry) raw |}.

Definition adjectiveEntry (rawForms : list string) : AdjectiveEntry :=
  let entry :=
    {| Class := "adjektiv";
       Forms := {[ "Positiv" := []; "Komparativ" := []; "Superlativ" := [] ]} |} in
  {| Class := Class entry; Forms := foldl bucket (Forms entry) rawForms |}.

(** What a save function hands to [json.MarshalIndent] and
    [ioutil.WriteFile]: the file name and the slice of entries, which the
    encoder renders element by element in slice order.  A nil slice (no
    verb at all, rendered as [null]) and an empty one are both [[]]. *)
Inductive FileData : Type :=
| VerbFile (out : list verbJSON)
| AdjectiveFile (entries : list AdjectiveEntry).

Definition WrittenFile : Type := (string * FileData)%type.

Definition saveVerbsJSON (all : list (list string)) (filename : string) : WrittenFile :=
  (filename, VerbFile (verbEntry <$> all)).

Definition saveAdjectivesJSON (adjs : list (list string)) (filename : string) : WrittenFile :=
  (filename, AdjectiveFile (adjectiveEntry <$> adjs)).

Record LemmaInput : Type := { HTML : string; FamilyID : Z }.

Definition allowedOrdklass : gmap string bool :=
  {[ "substantiv" := true; "verb" := true; "adjektiv" := true; "adverb" := true ]}.

Section WithParser.

(** [goquery.NewDocumentFromReader(strings.NewReader(html))] *)
Variable NewDocumentFromReader : string → result Node.

(** [FilterLemmasByOrdklass], from the decoded [inputMap] on.  Go leaves the
    order of [for key, entry := range inputMap] unspecified and varies it
    from run to run: [rangeOrder] is the order in which this run visits the
    keys. *)
Definition filterStep (inputMap : gmap string LemmaInput)
    (matchingHTMLs : list string) (key : string) : list string :=
  match inputMap !! key with
  | None => matchingHTMLs
  | Some entry =>
      match NewDocumentFromReader (HTML entry) with
      | Err _ => matchingHTMLs
      | Ok doc =>
          let ordklassText :=
            TrimSpace (Text (First (Find (document doc) dot_ordklass))) in
          if default false (allowedOrdklass !! ordklassText)
          then matchingHTMLs ++ [HTML entry]
          else matchingHTMLs
      end
  end.

Definition FilterLemmasByOrdklass (inputMap : gmap string LemmaInput)
    (rangeOrder : list string) : list string :=
  foldl (filterStep inputMap) [] rangeOrder.

(** the three slices [main] fills *)
Record Collected : Type :=
  { nouns : list (list string);
    verbs : list (list string);
    adjectives : list (list string) }.

(** one round of the loop over [filteredHTMLs]; [Err] is [log.Fatal] *)
Definition classify (acc : Collected) (html : string) : result Collected :=
  match NewDocumentFromReader html with
  | Err e => Err e
  | Ok doc =>
      let k := Text (Find (document doc) dot_ordklass) in
      if String.eqb k "substantiv" then
        Ok {| nouns := nouns acc ++ [parseSubstantiv doc];
              verbs := verbs acc; adjectives := adjectives acc |}
      else if String.eqb k "verb" then
        Ok {| nouns := nouns acc;
              verbs := verbs acc ++ [parseVerbForms doc];
              adjectives := adjectives acc |}
      else if String.eqb k "adjektiv" then
        Ok {| nouns := nouns acc; verbs := verbs acc;
              adjectives := adjectives acc ++ [parseAdjektiv doc] |}
      else Ok acc
  end.

Fixpoint classifyAll (acc : Collected) (htmls : list string) : result Collected :=
  match htmls with
  | [] => Ok acc
  | html :: rest =>
      match classify acc html with
      | Err e => Err e
      | Ok acc' => classifyAll acc' rest
      end
  end.

(** [main]: the files written, in the order of the calls, or the fatal
    error.  Writing a file is taken to succeed; the log lines and the
    listing of the verbs printed at the end are not part of any file. *)
Definition main (inputMap : gmap string LemmaInput) (rangeOrder : list string)
    : result (list WrittenFile) :=
  let filteredHTMLs := FilterLemmasByOrdklass inputMap rangeOrder in
  match classifyAll {| nouns := []; verbs := []; adjectives := [] |} filteredHTMLs with
  | Err e => Err e
  | Ok acc =>
      Ok [saveAdjectivesJSON (adjectives acc) "adjectives.json";
          saveVerbsJSON (verbs acc) "verbs.json"]
  end.

End WithParser.

End CategoryStage.

(** ** The worker pool: two buffered channels between dispatcher, workers
    and collector

    A state of the running pool, and the atomic actions of its goroutines.
    The scheduler picks the next action; a send blocks on a full channel, a
    receive on an empty one.  [work job] lists what a worker sends on
    [results] while it handles [job]. *)

Module WorkerPool.

Section Pool.

Context {Job Result : Type}.
Variable work : Job → list Result.
(** [res.Error != nil] *)
Variable failed : Result → bool.
Variable channelBufferSize : nat.

Record State : Type :=
  { source : list Job;              (* decoded, not yet sent by the dispatcher *)
    jobs : list Job;                (* the [jobs] channel *)
    workers : list (list Result);   (* per worker: sends left for the job in hand *)
    results : list Result;          (* the [results] channel *)
    collectedResults : list Result  (* the collector's slice *) }.

Inductive Action : Type :=
| Dispatch            (* [jobs <- Job{...}] *)
| Take (w : nat)      (* worker [w]: next round of [for job := range jobs] *)
| Send (w : nat)      (* worker [w]: [results <- Result{...}] *)
| Collect.            (* collector: next round of [for res := range results] *)

Definition step (a : Action) (st : State) : option State :=
  match a with
  | Dispatch =>
      match source st with
      | j :: rest =>
          if decide (length (jobs st) < channelBufferSize)%nat then
            Some {| source := rest; jobs := jobs st ++ [j]; workers := workers st;
                    results := results st;
                    collectedResults := collectedResults st |}
          else None
      | [] => None
      end
  | Take w =>
      match workers st !! w, jobs st with
      | Some [], j :: rest =>
          Some {| source := source st; jobs := rest;
                  workers := <[w := work j]> (workers st);
                  results := results st;
                  collectedResults := collectedResults st |}
      | _, _ => None
      end
  | Send w =>
      match workers st !! w with
      | Some (r :: pending) =>
          if decide (length (results st) < channelBufferSize)%nat then
            Some {| source := source st; jobs := jobs st;
                    workers := <[w := pending]> (workers st);
                    results := results st ++ [r];
                    collectedResults := collectedResults st |}
          else None
      | _ => None
      end
  | Collect =>
      match results st with
      | res :: rest =>
          Some {| source := source st; jobs := jobs st; workers := workers st;
                  results := rest;
                  collectedResults :=
                    if failed res then collectedResults st
                    else collectedResults st ++ [res] |}
      | [] => None
      end
  end.

(** Run a schedule; [None] when it asks for an action that cannot happen. *)
Fixpoint run (schedule : list Action) (st : State) : option State :=
  match schedule with
  | [] => Some st
  | a :: rest =>
      match step a st with
      | Some st' => run rest st'
      | None => None
      end
  end.

(** both channels empty and every worker waiting for a job *)
Definition idle (numWorkers : nat) (todo : list Job) (collected : list Result) : State :=
  {| source := todo; jobs := []; workers := replicate numWorkers [];
     results := []; collectedResults := collected |}.

Definition initial (numWorkers : nat) (all : list Job) : State :=
  idle numWorkers all [].

(** [close(jobs)], [wg.Wait()], [close(results)], [collectorWg.Wait()] have
    all returned: nothing is left anywhere. *)
Definition finished (st : State) : bool :=
  bool_decide (source st = [] ∧ jobs st = [] ∧ results st = [])
  && forallb (λ pending, match pending with [] => true | _ => false end) (workers st).

(** Everything that has still to reach the collector: the results in the
    channel, the sends the workers have in hand, and the work of the jobs
    not yet taken. *)
Definition outstanding (st : State) : list Result :=
  results st ++ concat (workers st) ++ ((jobs st ++ source st) ≫= work).

(** the sequential schedule of one job on worker 0, and of a list of jobs *)
Definition scheduleJob (j : Job) : list Action :=
  [Dispatch; Take 0] ++ (work j ≫= λ _, [Send 0; Collect]).

Definition sequentialSchedule (all : list Job) : list Action := all ≫= scheduleJob.

End Pool.

Definition isSend (a : Action) : bool :=
  match a with Send _ => true | _ => false end.

(** how often a schedule sends on [results] *)
Definition sendCount (schedule : list Action) : nat :=
  length (filter (λ a, isSend a = true) schedule).

End WorkerPool.

(** ** What the clean and the flatten stage share

    [InputEntry] and [Job] are declared alike in both programs; so are the
    worker count, the channel size and the comparison handed to
    [sort.Slice]. *)

Module Pipeline.

Record InputEntry : Type := { HTML : string }.

Record Job : Type := { Index : Z; Data : InputEntry }.

Definition numWorkers : Z := 0.
Definition channelBufferSize : Z := 100.

(** the number of workers [main] launches; [NumCPU] is [runtime.NumCPU()] *)
Definition workerCount (NumCPU : Z) : Z :=
  let workers := numWorkers in
  if workers <=? 0 then
    let workers := NumCPU in
    if workers <? 1 then 1 else workers
  else workers.

(** An element of the input array as [decoder.Decode(&entry)] sees it: a
    complete JSON value that either unmarshals into an [InputEntry] or is
    rejected (a number, a string, an object whose "html" is not a string).
    The decoder has read past the value in both cases, because it buffers the
    whole value before it unmarshals.  A text that is not a sequence of JSON
    values at all is outside this type. *)
Inductive Element : Type :=
| Decodable (entry : InputEntry)
| Undecodable (err : error).

(** the decoder between two reads: the values of the array still ahead *)
Definition Decoder : Type := list Element.

(** [sort.Slice(x, less)] rearranges [x] so that it is ordered by [less]; it
    promises nothing about equal elements.  Insertion sort is one such
    procedure; where the keys are pairwise different the outcome does not
    depend on the procedure. *)
Fixpoint insertSorted {A : Type} (less : A → A → bool) (x : A) (l : list A) : list A :=
  match l with
  | [] => [x]
  | y :: l' => if less x y then x :: l else y :: insertSorted less x l'
  end.

Definition sortSlice {A : Type} (less : A → A → bool) (l : list A) : list A :=
  foldr (insertSorted less) [] l.

End Pipeline.

(** ** The clean stage, [clean_saol_json.go] *)

Module CleanStage.
Import GoInt goquery Pipeline.

Record Result : Type :=
  { Index : Z; CleanedHTML : string; Error : option error }.

(** the dispatch loop [for decoder.More() { ... }], started with the counter
    at [index].  [decoder.More()] holds while a value is ahead, and
    [decoder.Decode] does not report [io.EOF] once the start of a value has
    been seen, so the [break] of the loop is not reached. *)
Fixpoint dispatch (index : Z) (decoder : Decoder) : list Job :=
  match decoder with
  | [] => []
  | Undecodable _ :: decoder' =>
      (* log; index++; continue *)
      dispatch (incr index) decoder'
  | Decodable entry :: decoder' =>
      {| Pipeline.Index := index; Data := entry |} :: dispatch (incr index) decoder'
  end.

Section WithParser.

Variable NewDocumentFromReader : string → result Node.
(** [html.Render] of one node, as [Selection.Html] calls it *)
Variable Render : Node → result string.

(** one round of the worker's [for job := range jobs]: the sends on
    [results] *)
Definition worker (job : Job) : list Result :=
  match NewDocumentFromReader (HTML (Data job)) with
  | Err err =>
      [{| Index := Pipeline.Index job; CleanedHTML := "";
          Error := Some (Errorf "failed to parse HTML" err) |}]
  | Ok doc =>
      let selection := Find (document doc) div_article in
      if Length selection =? 0 then
        [{| Index := Pipeline.Index job; CleanedHTML := ""; Error := None |}]
      else
        match Html Render (First selection) with
        | Err err =>
            [{| Index := Pipeline.Index job; CleanedHTML := "";
                Error := Some (Errorf "failed to get inner HTML" err) |}]
        | Ok cleanedHTML =>
            [{| Index := Pipeline.Index job; CleanedHTML := cleanedHTML; Error := None |}]
        end
  end.

End WithParser.

Definition failed (res : Result) : bool :=
  match Error res with Some _ => true | None => false end.

Definition less (a b : Result) : bool := Index a <? Index b.

(** the loop that fills [finalOutput]; the state is the map and [outputKey] *)
Definition assembleStep (st : gmap Z string * Z) (res : Result) : gmap Z string * Z :=
  let '(finalOutput, outputKey) := st in
  (<[outputKey := CleanedHTML res]> finalOutput, incr outputKey).

Definition assemble (collectedResults : list Result) : gmap Z string :=
  fst (foldl assembleStep (∅, 1) collectedResults).

(** [main] from the decoded array to the map handed to the encoder, under
    one schedule of the pool; [None] when the schedule does not describe a
    complete run. *)
Definition main (NewDocumentFromReader : string → result Node)
    (Render : Node → result string) (NumCPU : Z)
    (input : Decoder) (schedule : list WorkerPool.Action) : option (gmap Z string) :=
  let pool :=
    WorkerPool.run (worker NewDocumentFromReader Render) failed
      (Z.to_nat channelBufferSize) schedule
      (WorkerPool.initial (Z.to_nat (workerCount NumCPU)) (dispatch 0 input)) in
  match pool with
  | Some st =>
      if WorkerPool.finished st then
        Some (assemble (sortSlice less (WorkerPool.collectedResults st)))
      else None
  | None => None
  end.

End CleanStage.

(** ** The flatten stage: one output entry per [div.lemma] *)

Module FlattenStage.
Import GoInt goquery Pipeline.

Record Result : Type :=
  { Index : Z; LemmaHTMLs : list string; Error : option error }.

Record LemmaOutput : Type := { HTML : string; FamilyID : Z }.

(** The dispatch loop.  After a failed [decoder.Decode(&entry)] this program
    also runs [_ = decoder.Decode(&raw)], which reads one more value of the
    array (any value fits a [json.RawMessage]) and drops it; at the end of
    the array that second call fails and reads nothing. *)
Fixpoint dispatch (index : Z) (decoder : Decoder) : list Job :=
  match decoder with
  | [] => []
  | Undecodable _ :: decoder' =>
      let decoder'' :=
        match decoder' with
        | [] => decoder'
        | _ :: rest => rest
        end in
      dispatch (incr index) decoder''
  | Decodable entry :: decoder' =>
      {| Pipeline.Index := index; Data := entry |} :: dispatch (incr index) decoder'
  end.

Section WithParser.

Variable NewDocumentFromReader : string → result Node.
Variable Render : Node → result string.

(** the callback of [lemmaSelection.Each] *)
Definition lemmaStep (s : Selection) (lemmasHTML : list string) : list string :=
  match Html Render s with
  | Err _ => lemmasHTML
  | Ok html => lemmasHTML ++ [html]
  end.

(** one round of the worker's loop: the sends on [results].  A nil slice and
    an empty slice are both [[]]. *)
Definition worker (job : Job) : list Result :=
  match NewDocumentFromReader (Pipeline.HTML (Data job)) with
  | Err err =>
      [{| Index := Pipeline.Index job; LemmaHTMLs := [];
          Error := Some (Errorf "failed to parse HTML" err) |}]
  | Ok doc =>
      let articleSelection := Find (document doc) div_article in
      if Length articleSelection =? 0 then
        [{| Index := Pipeline.Index job; LemmaHTMLs := []; Error := None |}]
      else
        let lemmaSelection := Find (First articleSelection) div_lemma in
        let lemmasHTML := Each lemmaSelection lemmaStep [] in
        [{| Index := Pipeline.Index job; LemmaHTMLs := lemmasHTML; Error := None |}]
  end.

End WithParser.

Definition failed (res : Result) : bool :=
  match Error res with Some _ => true | None => false end.

Definition less (a b : Result) : bool := Index a <? Index b.

(** the state of the assembling loops: [finalOutput], [outputKey],
    [totalLemmasProcessed] *)
Definition Assembly : Type := (gmap Z LemmaOutput * Z * Z)%type.

Definition lemmaEntry (familyID : Z) (st : Assembly) (lemmaHTML : string) : Assembly :=
  let '(finalOutput, outputKey, totalLemmasProcessed) := st in
  let entry := {| HTML := lemmaHTML; FamilyID := familyID |} in
  (<[outputKey := entry]> finalOutput, incr outputKey, incr totalLemmasProcessed).

Definition assembleStep (st : Assembly) (res : Result) : Assembly :=
  let familyID := wrap (Index res + 1) in
  foldl (lemmaEntry familyID) st (LemmaHTMLs res).

Definition assemble (collectedResults : list Result) : gmap Z LemmaOutput :=
  fst (fst (foldl assembleStep (∅, 1, 0) collectedResults)).

Definition main (NewDocumentFromReader : string → result Node)
    (Render : Node → result string) (NumCPU : Z)
    (input : Decoder) (schedule : list WorkerPool.Action)
    : option (gmap Z LemmaOutput) :=
  let pool :=
    WorkerPool.run (worker NewDocumentFromReader Render) failed
      (Z.to_nat channelBufferSize) schedule
      (WorkerPool.initial (Z.to_nat (workerCount NumCPU)) (dispatch 0 input)) in
  match pool with
  | Some st =>
      if WorkerPool.finished st then
        Some (assemble (sortSlice less (WorkerPool.collectedResults st)))
      else None
  | None => None
  end.

End FlattenStage.

(** ** The dispatch loops on an input that may be broken

    [Pipeline.Decoder] lists complete JSON values.  An input file can also
    hold, from some point on, text that is no complete JSON value: a syntax
    error inside a value, a missing comma between two values, or the file
    breaking off inside a value.  Where such text does not start with a
    closing bracket, [decoder.Decode] reports an error other than [io.EOF]
    and reads nothing (the decoder keeps the error, or meets the same text
    again on the next call), while [decoder.More()] goes on reporting that
    something other than a closing bracket is ahead.  (Broken text that
    starts with a closing bracket, as behind a trailing comma, makes
    [decoder.More()] false after one failed [Decode]: it is a last
    [Undecodable] element.) *)

Module Stream.
Import GoInt Pipeline.

Inductive Item : Type :=
| Value (element : Element)
| Broken (err : error).

Definition Stream : Type := list Item.

Definition isBroken (item : Item) : bool :=
  match item with
  | Broken _ => true
  | Value _ => false
  end.

(** [decoder.More()] *)
Definition More (decoder : Stream) : bool :=
  match decoder with
  | [] => false
  | _ :: _ => true
  end.

(** [decoder.Decode(&entry)]: what it returns and the decoder afterwards *)
Definition Decode (decoder : Stream) : result InputEntry * Stream :=
  match decoder with
  | [] => (Err "EOF", decoder)
  | Value (Decodable entry) :: decoder' => (Ok entry, decoder')
  | Value (Undecodable err) :: decoder' => (Err err, decoder')
  | Broken err :: _ => (Err err, decoder)
  end.

(** [_ = decoder.Decode(&raw)] with a [json.RawMessage]: every complete
    value fits, anything else is left where it is *)
Definition DecodeRaw (decoder : Stream) : Stream :=
  match decoder with
  | Value _ :: decoder' => decoder'
  | _ => decoder
  end.

(** The loop [for decoder.More() { ... }] of the clean stage, cut off after
    [fuel] rounds: [None] when the loop has not ended by then, otherwise the
    jobs sent.  [Decode] reports [io.EOF] only where nothing but white space
    is left to read, and the [break] then ends the loop as [More()] would:
    that is the end of the stream. *)
Fixpoint cleanLoop (fuel : nat) (index : Z) (decoder : Stream) : option (list Job) :=
  match fuel with
  | O => None
  | S fuel' =>
      if More decoder then
        match Decode decoder with
        | (Err _, decoder') =>
            (* log; index++; continue *)
            cleanLoop fuel' (incr index) decoder'
        | (Ok entry, decoder') =>
            cons {| Index := index; Data := entry |}
              <$> cleanLoop fuel' (incr index) decoder'
        end
      else Some []
  end.

(** the loop of the flatten stage, with its second [Decode] after a failed
    one *)
Fixpoint flattenLoop (fuel : nat) (index : Z) (decoder : Stream) : option (list Job) :=
  match fuel with
  | O => None
  | S fuel' =>
      if More decoder then
        match Decode decoder with
        | (Err _, decoder') =>
            flattenLoop fuel' (incr index) (DecodeRaw decoder')
        | (Ok entry, decoder') =>
            cons {| Index := index; Data := entry |}
              <$> flattenLoop fuel' (incr index) decoder'
        end
      else Some []
  end.

(** an input array of complete values, as a stream *)
Definition complete (input : Decoder) : Stream := Value <$> input.

End Stream.

(** ** Vocabulary for statements about the table walk

    How a callback sees a row, and two readings of text that statements
    refer to. *)

Module Grammar.
Import GoStrings goquery.

(** [c] is one of the bytes of [s] *)
Fixpoint occurs (c : ascii) (s : string) : bool :=
  match s with
  | EmptyString => false
  | String a r => Ascii.eqb a c || occurs c r
  end.

(** the text in front of the first [c]; all of it when there is none *)
Fixpoint truncateAt (c : ascii) (s : string) : string :=
  match s with
  | EmptyString => ""
  | String a r => if Ascii.eqb a c then "" else String a (truncateAt c r)
  end.

(** the first white-space-delimited token, empty when there is none *)
Definition firstField (s : string) : string :=
  match Fields s with
  | f :: _ => f
  | [] => ""
  end.

(** the test every callback starts with: exactly one [th.ordformth] *)
Definition isHeader (s : Selection) : bool := Length (Find s th_ordformth) =? 1.

Definition headerLabel (s : Selection) : string :=
  TrimSpace (Text (Find (Find s th_ordformth) sel_i)).

Definition cells (s : Selection) : Selection := Find s sel_td.

(** the trimmed text of cell [i] *)
Definition cellText (s : Selection) (i : Z) : string :=
  TrimSpace (Text (Eq (cells s) i)).

(** what [parseVerbForms] puts in front of the section label: the first
    cell, and the second one behind a "-" when there is one and it is not
    blank *)
Definition verbValue (s : Selection) : string :=
  let tenseVoice := if 1 <? Length (cells s) then cellText s 1 else "" in
  if String.eqb tenseVoice "" then cellText s 0
  else cellText s 0 +:+ "-" +:+ tenseVoice.

(** the label sets of the two saved classes, and the classes
    [FilterLemmasByOrdklass] lets through *)
Definition verbLabels : list string :=
  ["Finita former"; "Infinita former"; "Presens particip"; "Perfekt particip"].

Definition adjektivLabels : list string := ["Positiv"; "Komparativ"; "Superlativ"].

Definition recognizedClasses : list string :=
  ["substantiv"; "verb"; "adjektiv"; "adverb"].

(** the class whose entries a written file holds *)
Definition fileClass (data : CategoryStage.FileData) : string :=
  match data with
  | CategoryStage.VerbFile _ => "verb"
  | CategoryStage.AdjectiveFile _ => "adjektiv"
  end.

(** [rangeOrder] is an order in which [range inputMap] can visit the keys:
    each key once. *)
Definition isRangeOrder (inputMap : gmap string CategoryStage.LemmaInput)
    (rangeOrder : list string) : Prop :=
  rangeOrder ≡ₚ (map_to_list inputMap).*1.

End Grammar.

(** ** What the two pipelines are expected to hand to the encoder *)

Module Expected.
Import Pipeline.

(** The documents of an input array, read off the array itself: every
    element that decodes, with its position in the array (counted from 0) as
    index, in the order of the array. *)
Definition documentAt (p : nat) (element : Element) : option Job :=
  match element with
  | Decodable entry => Some {| Index := Z.of_nat p; Data := entry |}
  | Undecodable _ => None
  end.

Definition documents (input : Decoder) : list Job :=
  omap (uncurry documentAt) (imap pair input).

Definition decodes (element : Element) : bool :=
  match element with
  | Decodable _ => true
  | Undecodable _ => false
  end.

(** no element fails to decode, except perhaps the last one *)
Definition decodesUpToLast (input : Decoder) : bool :=
  forallb decodes (removelast input).

Section WithParser.

Variable NewDocumentFromReader : string → result goquery.Node.
Variable Render : goquery.Node → result string.

(** the results of the documents that did not fail, in the order of the
    input array *)
Definition cleanKept (input : Decoder) : list CleanStage.Result :=
  filter (λ res, CleanStage.failed res = false)
    (documents input ≫= CleanStage.worker NewDocumentFromReader Render).

Definition flattenKept (input : Decoder) : list FlattenStage.Result :=
  filter (λ res, FlattenStage.failed res = false)
    (documents input ≫= FlattenStage.worker NewDocumentFromReader Render).

(** the results of the jobs that did not fail, in the order of dispatch *)
Definition cleanResults (input : Decoder) : list CleanStage.Result :=
  filter (λ res, CleanStage.failed res = false)
    (CleanStage.dispatch 0 input ≫= CleanStage.worker NewDocumentFromReader Render).

Definition flattenResults (input : Decoder) : list FlattenStage.Result :=
  filter (λ res, FlattenStage.failed res = false)
    (FlattenStage.dispatch 0 input ≫= FlattenStage.worker NewDocumentFromReader Render).

End WithParser.

(** the lemmas of a sequence of results, each with the number of its
    document: the index plus one *)
Definition lemmaEntries (rs : list FlattenStage.Result) : list FlattenStage.LemmaOutput :=
  res ← rs;
  (λ h, {| FlattenStage.HTML := h;
           FlattenStage.FamilyID := FlattenStage.Index res + 1 |})
    <$> FlattenStage.LemmaHTMLs res.

(** the body of the inner assembling loop of the flatten stage, for an entry
    already built *)
Definition entryStep (st : FlattenStage.Assembly) (e : FlattenStage.LemmaOutput)
    : FlattenStage.Assembly :=
  let '(finalOutput, outputKey, totalLemmasProcessed) := st in
  (<[outputKey := e]> finalOutput, GoInt.incr outputKey, GoInt.incr totalLemmasProcessed).

(** the map with [values] under the keys 1, 2, ... *)
Definition numbered {V : Type} (values : list V) (k : Z) : option V :=
  if decide (1 ≤ k ≤ Z.of_nat (length values)) then values !! Z.to_nat (k - 1)
  else None.

End Expected.

(** ** Sample documents

    Small documents in the shape of the dictionary's markup, a renderer for
    them, and the parser that reads back what the renderer wrote.  They
    stand for the external HTML library wherever a statement is applied to
    concrete input. *)

Module Samples.
Import goquery Pipeline.

Definition el (t : string) (class : list string) (children : list Node) : Node :=
  ElementNode t class children.

Definition page (body : list Node) : Node :=
  DocumentNode [el "html" [] [el "head" [] []; el "body" [] body]].

Definition header (label : string) : Node :=
  el "tr" [] [el "th" ["ordformth"] [el "i" [] [TextNode label]]].

Definition row (cells : list string) : Node :=
  el "tr" [] ((λ c, el "td" [] [TextNode c]) <$> cells).

Definition lemma (ordklass : string) (rows : list Node) : list Node :=
  [el "span" ["ordklass"] [TextNode ordklass];
   el "table" ["tabell"] [el "tbody" [] rows]].

(** a verb table headed "Presens" and "Preteritum" *)
Definition verbTense : Node :=
  page (lemma "verb"
    [header "Presens"; row ["springer"; " presens aktiv"]; row ["springs"; "presens passiv "];
     header "Preteritum"; row ["sprang"; "preteritum aktiv"]]).

(** a verb table headed by two of the labels [saveVerbsJSON] knows *)
Definition verbFinita : Node :=
  page (lemma "verb"
    [header "Finita former"; row ["springer"; " presens aktiv"]; row ["springs"; "presens passiv "];
     header " Infinita former "; row ["springa"]]).

Definition nounBil : Node :=
  page (lemma "substantiv"
    [header "Singular"; row ["en bil"; "obestämd form"]; row ["bilen"; "bestämd form"];
     row ["bils"]]).

Definition adjektivHog : Node :=
  page (lemma "adjektiv"
    [header "Positiv"; row [" en hög + substantiv "]; row ["högt"; "neutrum"];
     header "Komparativ"; row ["högre"]]).

Definition adverbGarna : Node := page (lemma "adverb" []).

(** an entry of the first two stages: an article with two lemmas, an
    article with one, and a page without article *)
Definition articleTwo : Node :=
  page [el "div" ["article"]
          [el "div" ["lemma"] [TextNode "bil"]; el "div" ["lemma"] [TextNode "bila"]]].

Definition articleOne : Node :=
  page [el "div" ["article"] [el "div" ["lemma"] [TextNode "cykel"]]].

Definition noArticle : Node := page [el "p" [] [TextNode "tom"]].

Definition sampleDocs : list Node :=
  [verbTense; verbFinita; nounBil; adjektivHog; adverbGarna;
   articleTwo; articleOne; noArticle].

Definition classAttr (class : list string) : string :=
  match class with
  | [] => ""
  | k :: _ => " class=" +:+ k
  end.

Fixpoint renderNode (n : Node) : string :=
  let all :=
    fix go (l : list Node) : string :=
      match l with
      | [] => ""
      | c :: l' => renderNode c +:+ go l'
      end in
  match n with
  | TextNode data => data
  | DocumentNode cs => all cs
  | ElementNode t class cs =>
      "<" +:+ t +:+ classAttr class +:+ ">" +:+ all cs +:+ "</" +:+ t +:+ ">"
  end.

Definition sampleRender (n : Node) : result string := Ok (renderNode n).

Definition sampleParser (html : string) : result Node :=
  match list_find (λ d, renderNode d = html) sampleDocs with
  | Some (_, d) => Ok d
  | None => Err "not a sample document"
  end.

Definition entryOf (d : Node) : InputEntry := {| HTML := renderNode d |}.

(** three entries, and a schedule for two workers under which the second
    and third job are finished before the first *)
Definition threeEntries : Decoder :=
  [Decodable (entryOf articleTwo); Decodable (entryOf noArticle);
   Decodable (entryOf articleOne)].

Definition outOfOrder : list WorkerPool.Action :=
  [WorkerPool.Dispatch; WorkerPool.Dispatch; WorkerPool.Dispatch;
   WorkerPool.Take 0; WorkerPool.Take 1; WorkerPool.Send 1;
   WorkerPool.Take 1; WorkerPool.Send 1; WorkerPool.Send 0;
   WorkerPool.Collect; WorkerPool.Collect; WorkerPool.Collect].

(** the array [[5, {"html": ...}, {"html": ...}]]: its first element is a
    number, which does not unmarshal into an [InputEntry] *)
Definition badFirst : Decoder :=
  [Undecodable "json: cannot unmarshal number into Go value of type main.InputEntry";
   Decodable (entryOf articleTwo); Decodable (entryOf articleOne)].

(** the selection a callback of [Each] receives for node [n] *)
Definition selectionOf (n : Node) : Selection := [{| ancestors := []; node := n |}].

(** row [i] of the inflection table of [doc] *)
Definition rowAt (doc : Node) (i : nat) : Located :=
  default {| ancestors := []; node := doc |} (Find (document doc) tabell_tr !! i).

(** entries of the flattened input of the category stage *)
Definition lemmaInput (familyID : Z) (d : Node) : CategoryStage.LemmaInput :=
  {| CategoryStage.HTML := renderNode d; CategoryStage.FamilyID := familyID |}.

Definition twoVerbs : gmap string CategoryStage.LemmaInput :=
  {[ "1" := lemmaInput 1 verbFinita; "2" := lemmaInput 2 verbTense ]}.

Definition mixedLemmas : gmap string CategoryStage.LemmaInput :=
  {[ "1" := lemmaInput 1 nounBil; "2" := lemmaInput 1 adverbGarna;
     "3" := lemmaInput 2 verbFinita; "4" := lemmaInput 3 adjektivHog ]}.

End Samples.

(** ** Vocabulary for statements about whole tables, saved entries and
    worker payloads *)

Module Reading.
Import GoStrings goquery Grammar.

(** [tagged] read as [value-label]: the value in front of "-label" *)
Definition untag (label tagged : string) : option string :=
  let value :=
    takeBytes (String.length tagged - String.length label - 1)%nat tagged in
  if String.eqb tagged (value +:+ "-" +:+ label) then Some value else None.

(** the rows for which a callback appends a record *)
Definition substantivYields (r : Located) : bool :=
  negb (isHeader [r]) && (Length (cells [r]) =? 2).

Definition verbYields (r : Located) : bool :=
  negb (isHeader [r]) && negb (Length (cells [r]) =? 0).

Definition adjektivYields (r : Located) : bool :=
  negb (isHeader [r]) && (Length (cells [r]) =? 1).

(** what [parseSubstantiv] and [parseAdjektiv] put in front of the context
    (for [parseVerbForms] see [verbValue]) *)
Definition substantivValue (s : Selection) : string :=
  cellText s 0 +:+ "-" +:+ firstField (cellText s 1).

Definition adjektivValue (s : Selection) : string :=
  TrimSpace (truncateAt "+" (cellText s 0)).

(** the inner HTML of a node, when rendering it succeeds *)
Definition rendered (Render : Node → result string) (x : Located) : option string :=
  match Html Render [x] with
  | Ok html => Some html
  | Err _ => None
  end.

(** a verb table that starts with a value row, and an article with a lemma
    that the renderer below refuses *)
Definition verbHeadless : Node :=
  Samples.page (Samples.lemma "verb"
    [Samples.row ["springe"; "konjunktiv"]; Samples.header "Finita former";
     Samples.row ["springer"; "presens aktiv"]]).

Definition articleThree : Node :=
  Samples.page
    [Samples.el "div" ["article"]
       [Samples.el "div" ["lemma"] [TextNode "bil"];
        Samples.el "div" ["lemma"] [Samples.el "template" [] []];
        Samples.el "div" ["lemma"] [TextNode "bila"]]].

Definition pickyRender (n : Node) : result string :=
  match n with
  | ElementNode "template" _ _ => Err "html: cannot render this node"
  | _ => Samples.sampleRender n
  end.

Definition pickyParser (html : string) : result Node :=
  if String.eqb html (Samples.renderNode articleThree) then Ok articleThree
  else Samples.sampleParser html.

(** the file [[{"html": ...} {"html": ...}]]: the comma between its two
    elements is missing *)
Definition missingComma : Stream.Stream :=
  [Stream.Value (Pipeline.Decodable (Samples.entryOf Samples.articleTwo));
   Stream.Broken "expected comma after array element"].

End Reading.

(** * Part II: properties *)

(** ** Strings *)

Module StringFacts.
Import GoStrings Grammar.

Lemma append_cons (a : ascii) (s t : string) : String a s +:+ t = String a (s +:+ t).
Proof. reflexivity. Qed.

Lemma append_nil (t : string) : "" +:+ t = t.
Proof. reflexivity. Qed.

Lemma append_assoc (s t u : string) : (s +:+ t) +:+ u = s +:+ t +:+ u.
Proof. induction s as [|a s IH]; [done|]. rewrite !append_cons. by f_equal. Qed.

Lemma LastIndex_lower (s : string) (c : ascii) : -1 ≤ LastIndex s c.
Proof.
  induction s as [|a s IH]; simpl; [lia|].
  destruct (Z.leb_spec 0 (LastIndex s c)); [lia|]. destruct (Ascii.eqb a c); lia.
Qed.

Lemma LastIndex_absent (s : string) (c : ascii) :
  occurs c s = false → LastIndex s c = -1.
Proof.
  induction s as [|a s IH]; simpl; [done|].
  intros [Ha Hs]%orb_false_elim. rewrite (IH Hs), Ha. done.
Qed.

Lemma LastIndex_tagged (v : string) (c : ascii) (label : string) :
  occurs c label = false →
  LastIndex (v +:+ String c label) c = Z.of_nat (String.length v).
Proof.
  intros Hl. induction v as [|a v IH].
  - rewrite append_nil. simpl. rewrite (LastIndex_absent _ _ Hl). simpl.
    by rewrite Ascii.eqb_refl.
  - rewrite append_cons. simpl LastIndex. rewrite IH.
    destruct (Z.leb_spec 0 (Z.of_nat (String.length v))); simpl String.length; lia.
Qed.

Lemma takeBytes_app (v r : string) : takeBytes (String.length v) (v +:+ r) = v.
Proof.
  induction v as [|a v IH]; [done|].
  rewrite append_cons. simpl. by f_equal.
Qed.

Lemma dropBytes_app (v r : string) : dropBytes (String.length v) (v +:+ r) = r.
Proof.
  induction v as [|a v IH]; [by destruct r|].
  by rewrite append_cons.
Qed.

Lemma dropBytes_tagged (v : string) (c : ascii) (r : string) :
  dropBytes (S (String.length v)) (v +:+ String c r) = r.
Proof.
  induction v as [|a v IH]; [by destruct r|].
  rewrite append_cons. exact IH.
Qed.

Lemma occurs_app (c : ascii) (s t : string) :
  occurs c (s +:+ t) = occurs c s || occurs c t.
Proof.
  induction s as [|a s IH]; [done|]. rewrite append_cons. simpl.
  by rewrite IH, orb_assoc.
Qed.

Lemma occurs_rev_app (c : ascii) (s t : string) :
  occurs c (String.rev_app s t) = occurs c s || occurs c t.
Proof.
  revert t. induction s as [|a s IH]; intros t; simpl; [done|].
  rewrite IH. simpl. by destruct (Ascii.eqb a c), (occurs c s), (occurs c t).
Qed.

Lemma occurs_rev (c : ascii) (s : string) : occurs c (String.rev s) = occurs c s.
Proof. unfold String.rev. rewrite occurs_rev_app. simpl. by rewrite orb_false_r. Qed.

Lemma trimFront_cons w2 w3 (a : ascii) (r1 : string) :
  trimFront w2 w3 (String a r1) =
  if asciiSpace a then trimFront w2 w3 r1
  else
    match r1 with
    | EmptyString => String a r1
    | String b r2 =>
        if w2 a b then trimFront w2 w3 r2
        else
          match r2 with
          | EmptyString => String a r1
          | String c r3 => if w3 a b c then trimFront w2 w3 r3 else String a r1
          end
    end.
Proof. reflexivity. Qed.

(** Trimming only removes bytes. *)
Lemma occurs_trimFront w2 w3 (c : ascii) (s : string) :
  occurs c s = false → occurs c (trimFront w2 w3 s) = false.
Proof.
  remember (String.length s) as n eqn:Hn. revert s Hn.
  induction n as [n IH] using lt_wf_ind. intros s -> Hs.
  destruct s as [|a r1]; [done|]. rewrite trimFront_cons.
  pose proof Hs as [Ha Hr1]%orb_false_elim.
  destruct (asciiSpace a).
  { apply (IH (String.length r1)); [simpl; lia|done|done]. }
  destruct r1 as [|b r2]; [done|].
  pose proof Hr1 as [Hb Hr2]%orb_false_elim.
  destruct (w2 a b).
  { apply (IH (String.length r2)); [simpl; lia|done|done]. }
  destruct r2 as [|d r3]; [done|].
  pose proof Hr2 as [Hd Hr3]%orb_false_elim.
  destruct (w3 a b d); [|done].
  apply (IH (String.length r3)); [simpl; lia|done|done].
Qed.

Lemma append_nil_r (s : string) : s +:+ "" = s.
Proof. induction s as [|a s IH]; [done|]. rewrite append_cons. by f_equal. Qed.

Lemma length_append (s t : string) :
  String.length (s +:+ t) = (String.length s + String.length t)%nat.
Proof. induction s as [|a s IH]; [done|]. rewrite append_cons. simpl. by f_equal. Qed.

Lemma rev_app_spec (s t : string) : String.rev_app s t = String.rev s +:+ t.
Proof.
  unfold String.rev. revert t. induction s as [|a s IH]; intros t; simpl; [done|].
  by rewrite (IH (String a t)), (IH (String a "")), append_assoc.
Qed.

Lemma rev_cons (a : ascii) (s : string) :
  String.rev (String a s) = String.rev s +:+ String a "".
Proof. unfold String.rev at 1. simpl. apply rev_app_spec. Qed.

Lemma rev_append (s t : string) : String.rev (s +:+ t) = String.rev t +:+ String.rev s.
Proof.
  induction s as [|a s IH]; [by rewrite append_nil, append_nil_r|].
  by rewrite append_cons, !rev_cons, IH, append_assoc.
Qed.

Lemma rev_rev (s : string) : String.rev (String.rev s) = s.
Proof.
  induction s as [|a s IH]; [done|]. by rewrite rev_cons, rev_append, IH.
Qed.

Lemma truncateAt_absent (c : ascii) (s : string) :
  occurs c s = false → truncateAt c s = s.
Proof.
  induction s as [|a s IH]; simpl; [done|].
  intros [-> Hs]%orb_false_elim. by rewrite IH.
Qed.

Lemma truncateAt_app_absent (c : ascii) (s t : string) :
  occurs c s = false → truncateAt c (s +:+ t) = s +:+ truncateAt c t.
Proof.
  induction s as [|a s IH]; [done|]. rewrite !append_cons. simpl.
  intros [-> Hs]%orb_false_elim. by rewrite IH.
Qed.

Lemma truncateAt_app_present (c : ascii) (s t : string) :
  occurs c s = true → truncateAt c (s +:+ t) = truncateAt c s.
Proof.
  induction s as [|a s IH]; [done|]. rewrite append_cons. simpl.
  destruct (Ascii.eqb a c); [done|]. simpl. intros Hs. by rewrite IH.
Qed.

(** *** Trimming and cutting at a byte that is not white space *)

Section TrimFront.

Variable w2 : ascii → ascii → bool.
Variable w3 : ascii → ascii → ascii → bool.
Variable p : ascii.
Hypothesis space_not_p : ∀ a, asciiSpace a = true → Ascii.eqb a p = false.
Hypothesis w2_not_p :
  ∀ a b, w2 a b = true → Ascii.eqb a p = false ∧ Ascii.eqb b p = false.
Hypothesis w3_not_p :
  ∀ a b c, w3 a b c = true →
           Ascii.eqb a p = false ∧ Ascii.eqb b p = false ∧ Ascii.eqb c p = false.

Local Abbreviation trim := (trimFront w2 w3).

(** What is trimmed off holds no [p]. *)
Lemma trimFront_split (s : string) :
  ∃ pre, s = pre +:+ trim s ∧ occurs p pre = false.
Proof.
  remember (String.length s) as n eqn:Hn. revert s Hn.
  induction n as [n IH] using lt_wf_ind. intros s ->.
  destruct s as [|a r1]; [by exists ""|]. rewrite trimFront_cons.
  destruct (asciiSpace a) eqn:Ha.
  { destruct (IH (String.length r1) ltac:(simpl; lia) r1 eq_refl) as (pre & H1 & H2).
    exists (String a pre). rewrite append_cons, <-H1. split; [done|].
    simpl. by rewrite (space_not_p a Ha). }
  destruct r1 as [|b r2]; [by exists ""|].
  destruct (w2 a b) eqn:Hab.
  { destruct (IH (String.length r2) ltac:(simpl; lia) r2 eq_refl) as (pre & H1 & H2).
    destruct (w2_not_p a b Hab) as [Hpa Hpb].
    exists (String a (String b pre)). rewrite !append_cons, <-H1. split; [done|].
    simpl. by rewrite Hpa, Hpb. }
  destruct r2 as [|c r3]; [by exists ""|].
  destruct (w3 a b c) eqn:Habc; [|by exists ""].
  destruct (IH (String.length r3) ltac:(simpl; lia) r3 eq_refl) as (pre & H1 & H2).
  destruct (w3_not_p a b c Habc) as (Hpa & Hpb & Hpc).
  exists (String a (String b (String c pre))). rewrite !append_cons, <-H1.
  split; [done|]. simpl. by rewrite Hpa, Hpb, Hpc.
Qed.

Lemma trimFront_length (s : string) : (String.length (trim s) ≤ String.length s)%nat.
Proof.
  destruct (trimFront_split s) as (pre & H & _).
  rewrite H at 2. rewrite length_append. lia.
Qed.

(** A string that trimming leaves alone does not start with white space. *)
Lemma trimFront_fixed_head (a : ascii) (r1 : string) :
  trim (String a r1) = String a r1 →
  asciiSpace a = false
  ∧ match r1 with
    | EmptyString => True
    | String b r2 =>
        w2 a b = false
        ∧ match r2 with
          | EmptyString => True
          | String c r3 => w3 a b c = false
          end
    end.
Proof.
  rewrite trimFront_cons. intros H.
  destruct (asciiSpace a).
  { pose proof (trimFront_length r1) as Hl. rewrite H in Hl. simpl in Hl. lia. }
  split; [done|]. destruct r1 as [|b r2]; [done|].
  destruct (w2 a b).
  { pose proof (trimFront_length r2) as Hl. rewrite H in Hl. simpl in Hl. lia. }
  split; [done|]. destruct r2 as [|c r3]; [done|].
  destruct (w3 a b c); [|done].
  pose proof (trimFront_length r3) as Hl. rewrite H in Hl. simpl in Hl. lia.
Qed.

Lemma trimFront_head_fixed (a : ascii) (r1 : string) :
  asciiSpace a = false →
  match r1 with
  | EmptyString => True
  | String b r2 =>
      w2 a b = false
      ∧ match r2 with
        | EmptyString => True
        | String c r3 => w3 a b c = false
        end
  end →
  trim (String a r1) = String a r1.
Proof.
  intros Ha H. rewrite trimFront_cons, Ha. destruct r1 as [|b r2]; [done|].
  destruct H as [-> H]. destruct r2 as [|c r3]; [done|]. by rewrite H.
Qed.

Lemma trimFront_idem (s : string) : trim (trim s) = trim s.
Proof.
  remember (String.length s) as n eqn:Hn. revert s Hn.
  induction n as [n IH] using lt_wf_ind. intros s ->.
  destruct s as [|a r1]; [done|]. rewrite (trimFront_cons _ _ a r1).
  destruct (asciiSpace a) eqn:Ha.
  { by apply (IH (String.length r1) ltac:(simpl; lia)). }
  destruct r1 as [|b r2]; [by apply trimFront_head_fixed|].
  destruct (w2 a b) eqn:Hab.
  { by apply (IH (String.length r2) ltac:(simpl; lia)). }
  destruct r2 as [|c r3]; [by apply trimFront_head_fixed|].
  destruct (w3 a b c) eqn:Habc; [|by apply trimFront_head_fixed].
  by apply (IH (String.length r3) ltac:(simpl; lia)).
Qed.

(** A front part of a string that trimming leaves alone is left alone. *)
Lemma trimFront_fixed_prefix (x y : string) : trim (x +:+ y) = x +:+ y → trim x = x.
Proof.
  destruct x as [|a x1]; [done|]. rewrite append_cons.
  intros [Ha H]%trimFront_fixed_head. apply trimFront_head_fixed; [done|].
  destruct x1 as [|b x2]; [done|]. rewrite append_cons in H.
  destruct H as [Hab H]. split; [done|].
  destruct x2 as [|c x3]; [done|]. by rewrite append_cons in H.
Qed.

(** Cutting in front of the first [p] and trimming the front commute. *)
Lemma trimFront_truncateAt (s : string) :
  trim (truncateAt p s) = truncateAt p (trim s).
Proof.
  remember (String.length s) as n eqn:Hn. revert s Hn.
  induction n as [n IH] using lt_wf_ind. intros s ->.
  destruct s as [|a r1]; [done|]. rewrite (trimFront_cons _ _ a r1).
  destruct (asciiSpace a) eqn:Ha.
  { simpl. rewrite (space_not_p a Ha), trimFront_cons, Ha.
    by apply (IH (String.length r1) ltac:(simpl; lia)). }
  destruct r1 as [|b r2].
  { simpl. destruct (Ascii.eqb a p); [done|]. by apply trimFront_head_fixed. }
  destruct (w2 a b) eqn:Hab.
  { destruct (w2_not_p a b Hab) as [Hpa Hpb]. simpl.
    rewrite Hpa, Hpb, trimFront_cons, Ha, Hab.
    by apply (IH (String.length r2) ltac:(simpl; lia)). }
  destruct r2 as [|c r3].
  { simpl. destruct (Ascii.eqb a p); [done|].
    destruct (Ascii.eqb b p); by apply trimFront_head_fixed. }
  destruct (w3 a b c) eqn:Habc.
  { destruct (w3_not_p a b c Habc) as (Hpa & Hpb & Hpc). simpl.
    rewrite Hpa, Hpb, Hpc, trimFront_cons, Ha, Hab, Habc.
    by apply (IH (String.length r3) ltac:(simpl; lia)). }
  simpl. destruct (Ascii.eqb a p); [done|].
  destruct (Ascii.eqb b p); [by apply trimFront_head_fixed|].
  destruct (Ascii.eqb c p); [by apply trimFront_head_fixed|].
  apply trimFront_head_fixed; [done|]. split; [done|]. done.
Qed.

End TrimFront.

Lemma not_plus (a : ascii) : byte a ≠ 43%N → Ascii.eqb a "+" = false.
Proof.
  intros H. destruct (Ascii.eqb_spec a "+") as [->|]; [|done]. by destruct H.
Qed.

Lemma asciiSpace_not_plus (a : ascii) : asciiSpace a = true → Ascii.eqb a "+" = false.
Proof.
  unfold asciiSpace. intros H. apply not_plus.
  repeat rewrite ?orb_true_iff, ?andb_true_iff, ?N.eqb_eq, ?N.leb_le in H. lia.
Qed.

Lemma space2_not_plus (a b : ascii) :
  space2 a b = true → Ascii.eqb a "+" = false ∧ Ascii.eqb b "+" = false.
Proof.
  unfold space2. intros H.
  repeat rewrite ?orb_true_iff, ?andb_true_iff, ?N.eqb_eq, ?N.leb_le in H.
  split; apply not_plus; lia.
Qed.

Lemma space3_not_plus (a b c : ascii) :
  space3 a b c = true →
  Ascii.eqb a "+" = false ∧ Ascii.eqb b "+" = false ∧ Ascii.eqb c "+" = false.
Proof.
  unfold space3. intros H.
  repeat rewrite ?orb_true_iff, ?andb_true_iff, ?N.eqb_eq, ?N.leb_le in H.
  repeat split; apply not_plus; lia.
Qed.

(** Trimming the cell before cutting it at the first "+" makes no
    difference once the cut text is trimmed. *)
Theorem TrimSpace_truncateAt_plus (t : string) :
  TrimSpace (truncateAt "+" (TrimSpace t)) = TrimSpace (truncateAt "+" t).
Proof.
  unfold TrimSpace at 1 3. unfold TrimSpace, TrimLeftSpace.
  set (L := trimFront space2 space3). set (u := L t).
  assert (Hcommute : ∀ s, L (truncateAt "+" s) = truncateAt "+" (L s)).
  { apply trimFront_truncateAt;
      auto using asciiSpace_not_plus, space2_not_plus, space3_not_plus. }
  rewrite !Hcommute. fold u. unfold TrimRightSpace at 2.
  set (Rv := trimFront (λ b a, space2 a b) (λ c b a, space3 a b c)).
  destruct (trimFront_split (λ b a, space2 a b) (λ c b a, space3 a b c) "+"
              asciiSpace_not_plus) with (s := String.rev u) as (pre & Hu & Hpre).
  { intros a b H. by destruct (space2_not_plus b a H). }
  { intros a b c H. by destruct (space3_not_plus c b a H) as (? & ? & ?). }
  fold Rv in Hu. apply (f_equal String.rev) in Hu.
  rewrite rev_rev, rev_append in Hu.
  assert (Hfix : L (String.rev (Rv (String.rev u))) = String.rev (Rv (String.rev u))).
  { apply (trimFront_fixed_prefix space2 space3 "+" asciiSpace_not_plus
             space2_not_plus space3_not_plus _ (String.rev pre)).
    rewrite <-Hu. apply trimFront_idem. }
  rewrite Hfix.
  destruct (occurs "+" (String.rev (Rv (String.rev u)))) eqn:Hocc.
  - f_equal. transitivity
      (truncateAt "+" (String.rev (Rv (String.rev u)) +:+ String.rev pre)).
    + by rewrite truncateAt_app_present.
    + by rewrite <-Hu.
  - rewrite (truncateAt_absent _ _ Hocc).
    rewrite (truncateAt_absent "+" u).
    + unfold TrimRightSpace. fold Rv. rewrite rev_rev. f_equal.
      apply trimFront_idem.
    + rewrite Hu, occurs_app, Hocc, occurs_rev. done.
Qed.

Lemma occurs_TrimSpace (c : ascii) (s : string) :
  occurs c s = false → occurs c (TrimSpace s) = false.
Proof.
  intros Hs. unfold TrimSpace, TrimRightSpace, TrimLeftSpace.
  rewrite occurs_rev. apply occurs_trimFront. rewrite occurs_rev.
  by apply occurs_trimFront.
Qed.

Lemma occurs_truncateAt (c : ascii) (s : string) : occurs c (truncateAt c s) = false.
Proof.
  induction s as [|a s IH]; simpl; [done|].
  destruct (Ascii.eqb a c) eqn:E; simpl; [done|]. by rewrite E.
Qed.

(** [SplitN(s, sep, 2)[0]] is the text in front of the first separator, and
    the parts put [s] together again. *)
Lemma cut_truncateAt (c : ascii) (s : string) :
  match cut c s with
  | Some (before, after) => before = truncateAt c s ∧ s = before +:+ String c after
  | None => truncateAt c s = s
  end.
Proof.
  induction s as [|a s IH]; simpl; [done|].
  destruct (Ascii.eqb a c) eqn:E.
  - apply Ascii.eqb_eq in E as ->. by rewrite append_nil.
  - destruct (cut c s) as [[before after]|].
    + destruct IH as [-> IH]. split; [done|]. rewrite append_cons. by f_equal.
    + by f_equal.
Qed.

Lemma SplitN2_head (c : ascii) (s : string) :
  ∃ rest, SplitN2 s c = truncateAt c s :: rest.
Proof.
  unfold SplitN2. pose proof (cut_truncateAt c s) as H.
  destruct (cut c s) as [[before after]|].
  - destruct H as [-> _]. eauto.
  - rewrite H. eauto.
Qed.

End StringFacts.

(** ** The table walk of the category stage *)

Module CategoryFacts.
Import GoStrings goquery CategoryStage Grammar StringFacts Samples.

(** *** The three callbacks, case by case *)

Lemma header_row (f : Selection → rowState → rowState) (s : Selection)
    (acc : list string) (ctx : string) :
  f ∈ [substantivRow; verbRow; adjektivRow] →
  isHeader s = true → f s (acc, ctx) = (acc, headerLabel s).
Proof.
  unfold isHeader, headerLabel. intros Hf Hh.
  repeat (apply elem_of_cons in Hf as [->|Hf]);
    [| | |by apply elem_of_nil in Hf];
    unfold substantivRow, verbRow, adjektivRow; by rewrite Hh.
Qed.

Lemma substantivRow_skip (s : Selection) (st : rowState) :
  isHeader s = false → Length (cells s) ≠ 2 → substantivRow s st = st.
Proof.
  unfold isHeader, cells, substantivRow. intros -> Hn. destruct st as [acc ctx].
  by destruct (Z.eqb_spec (Length (Find s sel_td)) 2).
Qed.

Lemma substantivRow_value (s : Selection) (acc : list string) (ctx : string) :
  isHeader s = false → Length (cells s) = 2 →
  substantivRow s (acc, ctx) =
  (acc ++ [cellText s 0 +:+ "-" +:+ firstField (cellText s 1) +:+ "-" +:+ ctx], ctx).
Proof.
  unfold isHeader, cells, cellText, firstField, substantivRow, cells.
  intros -> ->. simpl. by destruct (Fields _).
Qed.

Lemma adjektivRow_skip (s : Selection) (st : rowState) :
  isHeader s = false → Length (cells s) ≠ 1 → adjektivRow s st = st.
Proof.
  unfold isHeader, cells, adjektivRow. intros -> Hn. destruct st as [acc ctx].
  by destruct (Z.eqb_spec (Length (Find s sel_td)) 1).
Qed.

Lemma adjektivRow_value (s : Selection) (acc : list string) (ctx : string) :
  isHeader s = false → Length (cells s) = 1 →
  adjektivRow s (acc, ctx) =
  (acc ++ [TrimSpace (truncateAt "+" (cellText s 0)) +:+ "-" +:+ ctx], ctx).
Proof.
  unfold isHeader, cells, cellText, adjektivRow, cells. intros -> ->. simpl.
  by destruct (SplitN2_head "+" (TrimSpace (Text (Eq (Find s sel_td) 0)))) as [rest ->].
Qed.

Lemma verbRow_skip (s : Selection) (st : rowState) :
  isHeader s = false → Length (cells s) = 0 → verbRow s st = st.
Proof.
  unfold isHeader, cells, verbRow. intros -> ->. by destruct st.
Qed.

Lemma verbRow_value (s : Selection) (acc : list string) (ctx : string) :
  isHeader s = false → Length (cells s) ≠ 0 →
  verbRow s (acc, ctx) = (acc ++ [verbValue s +:+ "-" +:+ ctx], ctx).
Proof.
  unfold isHeader, verbValue, cellText, cells, verbRow. intros -> Hn.
  destruct (Z.eqb_spec (Length (Find s sel_td)) 0); [done|].
  by destruct (String.eqb _ "").
Qed.

(** *** Bucketing a tagged string *)

Lemma bucket_tagged (forms : gmap string (list string)) (v label : string) :
  occurs "-" label = false →
  bucket forms (v +:+ "-" +:+ label) =
  match forms !! label with
  | Some l => <[label := l ++ [v]]> forms
  | None => forms
  end.
Proof.
  intros Hl. unfold bucket, sliceFrom, sliceTo.
  change ("-" +:+ label) with (String "-" label).
  rewrite (LastIndex_tagged _ _ _ Hl).
  destruct (Z.ltb_spec (Z.of_nat (String.length v)) 0); [lia|].
  rewrite Nat2Z.id, takeBytes_app.
  replace (Z.to_nat (Z.of_nat (String.length v) + 1)) with (S (String.length v)) by lia.
  by rewrite dropBytes_tagged.
Qed.

Lemma bucket_dom (forms : gmap string (list string)) (tagged : string) :
  dom (bucket forms tagged) = dom forms.
Proof.
  unfold bucket. destruct (_ <? 0); [done|].
  destruct (forms !! _) as [l|] eqn:E; [|done].
  by apply dom_insert_lookup_L.
Qed.

Lemma foldl_bucket_dom (raw : list string) (forms : gmap string (list string)) :
  dom (foldl bucket forms raw) = dom forms.
Proof.
  revert forms. induction raw as [|t raw IH]; intros forms; simpl; [done|].
  by rewrite IH, bucket_dom.
Qed.

(** The two initial maps hold exactly the labels of their class. *)
Lemma verbEntry_dom (raw : list string) :
  dom (vForms (verbEntry raw)) = list_to_set verbLabels.
Proof.
  unfold verbEntry. simpl vForms. rewrite foldl_bucket_dom.
  rewrite !dom_insert_L, dom_singleton_L. simpl. set_solver.
Qed.

Lemma adjectiveEntry_dom (rawForms : list string) :
  dom (Forms (adjectiveEntry rawForms)) = list_to_set adjektivLabels.
Proof.
  unfold adjectiveEntry. simpl Forms. rewrite foldl_bucket_dom.
  rewrite !dom_insert_L, dom_singleton_L. simpl. set_solver.
Qed.

Lemma label_no_dash (label : string) :
  label ∈ verbLabels ++ adjektivLabels → occurs "-" label = false.
Proof.
  intros H. repeat (apply elem_of_cons in H as [->|H]); try done.
  by apply elem_of_nil in H.
Qed.

(** Bucketing [v-label], for any label without "-": [v] is appended to the
    bucket of that label if there is one, and nothing else changes. *)
Lemma bucket_tagged_at (forms : gmap string (list string)) (v label k : string) :
  occurs "-" label = false →
  bucket forms (v +:+ "-" +:+ label) !! k =
  if decide (label = k) then (λ l, l ++ [v]) <$> forms !! k else forms !! k.
Proof.
  intros Hd. rewrite (bucket_tagged _ _ _ Hd).
  destruct (forms !! label) as [l|] eqn:Hl.
  - rewrite lookup_insert. case_decide; [|done]. subst k. by rewrite Hl.
  - case_decide; [|done]. subst k. by rewrite Hl.
Qed.

(** the buckets [saveVerbsJSON] starts with *)
Lemma verb_buckets_initial (label : string) :
  ({[ "Finita former" := []; "Infinita former" := [];
      "Presens particip" := []; "Perfekt particip" := [] ]}
   : gmap string (list string)) !! label
  = if decide (label ∈ verbLabels) then Some [] else None.
Proof.
  case_decide as H.
  - repeat (apply elem_of_cons in H as [->|H]); try done. by apply elem_of_nil in H.
  - unfold verbLabels in H. rewrite !not_elem_of_cons in H.
    destruct H as (? & ? & ? & ? & _).
    rewrite !lookup_insert_ne by done. by rewrite lookup_singleton_ne.
Qed.

(** *** The walk over a table of five rows: header, two value rows, header,
    one value row *)

Lemma parseVerbForms_five (doc : Node) (h1 v1 v2 h2 v3 : Located) :
  Find (document doc) tabell_tr = [h1; v1; v2; h2; v3] →
  isHeader [h1] = true → isHeader [h2] = true →
  Forall (λ v, isHeader [v] = false ∧ Length (cells [v]) ≠ 0) [v1; v2; v3] →
  parseVerbForms doc =
  [verbValue [v1] +:+ "-" +:+ headerLabel [h1];
   verbValue [v2] +:+ "-" +:+ headerLabel [h1];
   verbValue [v3] +:+ "-" +:+ headerLabel [h2]].
Proof.
  intros Hrows Hh1 Hh2 Hv. unfold parseVerbForms. rewrite Hrows.
  apply Forall_cons in Hv as [[? ?] Hv]. apply Forall_cons in Hv as [[? ?] Hv].
  apply Forall_cons in Hv as [[? ?] _].
  unfold Each. cbn [foldl].
  rewrite (header_row verbRow [h1]) by (set_solver || done).
  rewrite (verbRow_value [v1]) by done. rewrite (verbRow_value [v2]) by done.
  rewrite (header_row verbRow [h2]) by (set_solver || done).
  by rewrite (verbRow_value [v3]) by done.
Qed.

End CategoryFacts.

(** ** Claims about the table walk and the category files *)

Module CategoryClaims.
Import GoStrings goquery CategoryStage Grammar StringFacts Samples CategoryFacts.

(** C4, as stated, fails for verbs: the last row of the sample verb table
    is a value row with one cell, not the two cells of a verb table, and
    [parseVerbForms] records it. *)
Lemma C4_counterexample_one_cell_verb_row :
  let s := [rowAt verbFinita 4] in
  isHeader s = false ∧ Length (cells s) = 1
  ∧ verbRow s ([], "Infinita former") = (["springa-Infinita former"], "Infinita former").
Proof. vm_compute. done. Qed.

(** C4 (amended): a value row is skipped, leaving records and context as
    they were, when a noun row has a cell count other than 2, when an
    adjective row has a cell count other than 1, and when a verb row has no
    cell at all; a verb row with one or more cells yields one record. *)
Theorem C4_rows_skipped_by_arity (s : Selection) (st : rowState) :
  isHeader s = false →
  (Length (cells s) ≠ 2 → substantivRow s st = st)
  ∧ (Length (cells s) ≠ 1 → adjektivRow s st = st)
  ∧ (Length (cells s) = 0 → verbRow s st = st)
  ∧ (Length (cells s) ≠ 0 →
     verbRow s st = (st.1 ++ [verbValue s +:+ "-" +:+ st.2], st.2)).
Proof.
  intros Hh. repeat split.
  - by apply substantivRow_skip.
  - by apply adjektivRow_skip.
  - by apply verbRow_skip.
  - destruct st. by apply verbRow_value.
Qed.

Lemma C4_rows_skipped_witness :
  let s := [rowAt nounBil 3] in
  let st := (["bilen-bestämd-Singular"], "Singular") in
  isHeader s = false
  ∧ ((Length (cells s) ≠ 2 → substantivRow s st = st)
     ∧ (Length (cells s) ≠ 1 → adjektivRow s st = st)
     ∧ (Length (cells s) = 0 → verbRow s st = st)
     ∧ (Length (cells s) ≠ 0 →
        verbRow s st = (st.1 ++ [verbValue s +:+ "-" +:+ st.2], st.2))).
Proof.
  split; [reflexivity|].
  apply (C4_rows_skipped_by_arity [rowAt nounBil 3]). reflexivity.
Defined.

(** C6, as stated, fails: two noun rows, and two verb rows, whose cells
    start with the same tokens give different records, so the record is not
    built from the first tokens alone. *)
Lemma C6_counterexample_beyond_first_tokens :
  let s1 := selectionOf (row ["en bil"; "obestämd form"]) in
  let s2 := selectionOf (row ["en båt"; "obestämd form"]) in
  let v1 := selectionOf (row ["springer"; "presens aktiv"]) in
  let v2 := selectionOf (row ["springer"; "presens passiv"]) in
  (isHeader s1 = false ∧ Length (cells s1) = 2 ∧ isHeader s2 = false ∧ Length (cells s2) = 2)
  ∧ (firstField (Text (Eq (cells s1) 0)) = firstField (Text (Eq (cells s2) 0))
     ∧ firstField (Text (Eq (cells s1) 1)) = firstField (Text (Eq (cells s2) 1))
     ∧ substantivRow s1 ([], "Singular") ≠ substantivRow s2 ([], "Singular"))
  ∧ (firstField (Text (Eq (cells v1) 0)) = firstField (Text (Eq (cells v2) 0))
     ∧ firstField (Text (Eq (cells v1) 1)) = firstField (Text (Eq (cells v2) 1))
     ∧ verbRow v1 ([], "Finita former") ≠ verbRow v2 ([], "Finita former")).
Proof. vm_compute. repeat split; discriminate. Qed.

(** C6 (amended): for a value row with two cells, [parseSubstantiv] records
    the whole trimmed text of the first cell, the first
    white-space-delimited token of the second cell and the context, joined
    by "-"; [parseVerbForms] records the whole trimmed text of the first
    cell, then the whole trimmed text of the second cell unless it is
    blank, then the context, joined by "-". *)
Theorem C6_two_cell_composite (s : Selection) (acc : list string) (ctx : string) :
  isHeader s = false → Length (cells s) = 2 →
  substantivRow s (acc, ctx) =
    (acc ++ [cellText s 0 +:+ "-" +:+ firstField (cellText s 1) +:+ "-" +:+ ctx], ctx)
  ∧ verbRow s (acc, ctx) =
    (acc ++ [(if String.eqb (cellText s 1) "" then cellText s 0
              else cellText s 0 +:+ "-" +:+ cellText s 1) +:+ "-" +:+ ctx], ctx).
Proof.
  intros Hh Hc. split; [by apply substantivRow_value|].
  rewrite verbRow_value by (done || lia). unfold verbValue. by rewrite Hc.
Qed.

Lemma C6_two_cell_composite_witness :
  let s := selectionOf (row ["en bil"; " obestämd form"]) in
  substantivRow s (["x"], "Singular") = (["x"; "en bil-obestämd-Singular"], "Singular")
  ∧ verbRow s (["x"], "Singular") = (["x"; "en bil-obestämd form-Singular"], "Singular").
Proof.
  apply (C6_two_cell_composite (selectionOf (row ["en bil"; " obestämd form"])));
    reflexivity.
Defined.

(** C10: for a value row with exactly one cell, [parseAdjektiv] records one
    entry, made of a form and the current degree.  The form is the text of
    the cell cut off in front of its first "+", with the white space around
    it trimmed (whether the cell is trimmed before the cut, as the code
    does, makes no difference); the form holds no "+", and what was cut off,
    if anything, starts at that "+". *)
Theorem C10_adjektiv_truncates_at_plus (s : Selection) (entries : list string)
    (currentDegree : string) :
  isHeader s = false → Length (cells s) = 1 →
  let text := Text (Eq (cells s) 0) in
  let form := TrimSpace (truncateAt "+" text) in
  adjektivRow s (entries, currentDegree) =
    (entries ++ [form +:+ "-" +:+ currentDegree], currentDegree)
  ∧ form = TrimSpace (truncateAt "+" (TrimSpace text))
  ∧ occurs "+" form = false
  ∧ (text = truncateAt "+" text
     ∨ ∃ discarded, text = truncateAt "+" text +:+ String "+" discarded).
Proof.
  intros Hh Hc text form.
  assert (Hform : form = TrimSpace (truncateAt "+" (TrimSpace text)))
    by (symmetry; apply TrimSpace_truncateAt_plus).
  split; [|split; [done|split]].
  - rewrite Hform. by apply adjektivRow_value.
  - apply occurs_TrimSpace, occurs_truncateAt.
  - pose proof (cut_truncateAt "+" text) as H.
    destruct (cut "+" text) as [[before after]|]; [|by left].
    destruct H as [-> H]. right. by exists after.
Qed.

Lemma C10_adjektiv_truncates_witness :
  let s := [rowAt adjektivHog 1] in
  Text (Eq (cells s) 0) = " en hög + substantiv "
  ∧ adjektivRow s ([], "Positiv") = (["en hög-Positiv"], "Positiv").
Proof.
  split; [reflexivity|].
  apply (C10_adjektiv_truncates_at_plus [rowAt adjektivHog 1] [] "Positiv");
    reflexivity.
Defined.

(** C5, as stated, fails: "Presens" and "Preteritum" are not among the
    labels [saveVerbsJSON] keeps, so the three records of the sample table
    are dropped and the entry has no such buckets. *)
Lemma C5_counterexample_presens_dropped :
  let forms := vForms (verbEntry (parseVerbForms verbTense)) in
  parseVerbForms verbTense =
    ["springer-presens aktiv-Presens"; "springs-presens passiv-Presens";
     "sprang-preteritum aktiv-Preteritum"]
  ∧ forms !! "Presens" = None ∧ forms !! "Preteritum" = None
  ∧ map_Forall (λ _ values, values = []) forms.
Proof.
  repeat split; try by vm_compute.
  apply map_Forall_to_list. vm_compute. repeat constructor.
Qed.

(** C5 (amended): for a verb table made of a header row, two value rows, a
    second header row and one value row, every value row with at least one
    cell: where the two header labels are different labels of the verb
    label set ("Finita former", "Infinita former", "Presens particip",
    "Perfekt particip"), the entry holds the values of the first two rows,
    in row order, under the first label and the value of the last row under
    the second.  Records under a header label outside the label set,
    "Presens" and "Preteritum" included, are dropped: whatever the two
    labels are, as long as they hold no "-", the entry has a bucket for each
    label of the set and for nothing else, and a bucket holds the values of
    the rows under a header with its label and no others. *)
Theorem C5_verb_sections_grouped (doc : Node) (h1 v1 v2 h2 v3 : Located) :
  Find (document doc) tabell_tr = [h1; v1; v2; h2; v3] →
  isHeader [h1] = true → isHeader [h2] = true →
  Forall (λ v, isHeader [v] = false ∧ Length (cells [v]) ≠ 0) [v1; v2; v3] →
  let forms := vForms (verbEntry (parseVerbForms doc)) in
  let first := headerLabel [h1] in
  let second := headerLabel [h2] in
  (first ∈ verbLabels → second ∈ verbLabels → first ≠ second →
   forms !! first = Some [verbValue [v1]; verbValue [v2]]
   ∧ forms !! second = Some [verbValue [v3]])
  ∧ (occurs "-" first = false → occurs "-" second = false →
     ∀ label,
       forms !! label =
       if decide (label ∈ verbLabels)
       then Some ((if decide (first = label)
                   then [verbValue [v1]; verbValue [v2]] else [])
                  ++ (if decide (second = label) then [verbValue [v3]] else []))
       else None).
Proof.
  intros Hrows Hh1 Hh2 Hv forms first second. subst forms first second.
  rewrite (parseVerbForms_five doc h1 v1 v2 h2 v3) by done.
  generalize (headerLabel [h1]) (headerLabel [h2])
    (verbValue [v1]) (verbValue [v2]) (verbValue [v3]).
  intros l1 l2 a b c.
  assert (Hall : occurs "-" l1 = false → occurs "-" l2 = false →
            ∀ label,
              vForms (verbEntry [a +:+ "-" +:+ l1; b +:+ "-" +:+ l1; c +:+ "-" +:+ l2])
                !! label =
              if decide (label ∈ verbLabels)
              then Some ((if decide (l1 = label) then [a; b] else [])
                         ++ (if decide (l2 = label) then [c] else []))
              else None).
  { intros Hd1 Hd2 label. unfold verbEntry. cbn [vForms vClass foldl].
    rewrite (bucket_tagged_at _ c l2 label Hd2), (bucket_tagged_at _ b l1 label Hd1),
      (bucket_tagged_at _ a l1 label Hd1), verb_buckets_initial.
    by repeat case_decide. }
  split; [|exact Hall].
  intros Hl1 Hl2 Hne.
  assert (Hd1 : occurs "-" l1 = false) by (apply label_no_dash, elem_of_app; by left).
  assert (Hd2 : occurs "-" l2 = false) by (apply label_no_dash, elem_of_app; by left).
  split; rewrite (Hall Hd1 Hd2); repeat case_decide; done || congruence.
Qed.

Lemma C5_verb_sections_witness :
  (let forms := vForms (verbEntry (parseVerbForms verbFinita)) in
   forms !! "Finita former" = Some ["springer-presens aktiv"; "springs-presens passiv"]
   ∧ forms !! "Infinita former" = Some ["springa"])
  ∧ (let forms := vForms (verbEntry (parseVerbForms verbTense)) in
     forms !! "Presens" = None ∧ forms !! "Finita former" = Some []).
Proof.
  split.
  - refine (proj1 (C5_verb_sections_grouped verbFinita
                     (rowAt verbFinita 0) (rowAt verbFinita 1) (rowAt verbFinita 2)
                     (rowAt verbFinita 3) (rowAt verbFinita 4)
                     eq_refl eq_refl eq_refl _) _ _ _).
    + repeat constructor; by vm_compute.
    + vm_compute. repeat constructor.
    + vm_compute. repeat constructor.
    + vm_compute. discriminate.
  - pose proof (proj2 (C5_verb_sections_grouped verbTense
                         (rowAt verbTense 0) (rowAt verbTense 1) (rowAt verbTense 2)
                         (rowAt verbTense 3) (rowAt verbTense 4)
                         eq_refl eq_refl eq_refl
                         ltac:(repeat constructor; by vm_compute))
                  eq_refl eq_refl) as H.
    split; [exact (H "Presens")|exact (H "Finita former")].
Defined.

(** *** The files [main] writes *)

Lemma main_files (parser : string → result Node)
    (inputMap : gmap string LemmaInput) (rangeOrder : list string)
    (files : list WrittenFile) :
  main parser inputMap rangeOrder = Ok files →
  ∃ adjs vbs,
    files = [("adjectives.json", AdjectiveFile (adjectiveEntry <$> adjs));
             ("verbs.json", VerbFile (verbEntry <$> vbs))].
Proof.
  unfold main. destruct (classifyAll _ _ _) as [acc|e]; [|done].
  intros [= <-]. by exists (adjectives acc), (verbs acc).
Qed.

(** C9, as stated, fails: on an input with a noun, an adverb, a verb and an
    adjective lemma the stage writes two files, for adjectives and verbs;
    no file holds the nouns or the adverbs. *)
Lemma C9_counterexample_two_files :
  isRangeOrder mixedLemmas ["3"; "1"; "2"; "4"]
  ∧ ∃ files,
      main sampleParser mixedLemmas ["3"; "1"; "2"; "4"] = Ok files
      ∧ files.*1 = ["adjectives.json"; "verbs.json"]
      ∧ ¬ (∀ c, c ∈ recognizedClasses → ∃ f, f ∈ files ∧ fileClass f.2 = c).
Proof.
  split; [by vm_compute|].
  destruct (main sampleParser mixedLemmas ["3"; "1"; "2"; "4"]) as [files|e] eqn:E;
    [|by vm_compute in E].
  exists files. split; [done|].
  destruct (main_files _ _ _ _ E) as (adjs & vbs & ->). split; [done|].
  intros H. destruct (H "substantiv") as ([name data] & Hin & Hc).
  { repeat constructor. }
  apply elem_of_cons in Hin as [[= -> ->]|Hin]; [discriminate Hc|].
  apply elem_of_cons in Hin as [[= -> ->]|Hin]; [discriminate Hc|].
  by apply elem_of_nil in Hin.
Qed.

(** C9 (amended): every run of the category stage that does not end in a
    fatal error writes exactly two files, "adjectives.json" and then
    "verbs.json".  Every entry of the first has class "adjektiv" and a
    [forms] map whose keys are exactly "Positiv", "Komparativ" and
    "Superlativ"; every entry of the second has class "verb" and a [forms]
    map whose keys are exactly "Finita former", "Infinita former", "Presens
    particip" and "Perfekt particip".  No file is written for nouns or
    adverbs. *)
Theorem C9_category_files (parser : string → result Node)
    (inputMap : gmap string LemmaInput) (rangeOrder : list string)
    (files : list WrittenFile) :
  main parser inputMap rangeOrder = Ok files →
  ∃ adjs vbs,
    files = [("adjectives.json", AdjectiveFile adjs); ("verbs.json", VerbFile vbs)]
    ∧ Forall (λ e, Class e = "adjektiv"
                   ∧ dom (Forms e) = list_to_set adjektivLabels) adjs
    ∧ Forall (λ e, vClass e = "verb"
                   ∧ dom (vForms e) = list_to_set verbLabels) vbs.
Proof.
  intros (adjs & vbs & ->)%main_files.
  exists (adjectiveEntry <$> adjs), (verbEntry <$> vbs). split; [done|].
  split; apply Forall_fmap, Forall_true; intros raw; split; try done.
  - apply adjectiveEntry_dom.
  - apply verbEntry_dom.
Qed.

Lemma C9_category_files_witness :
  ∃ files,
    main sampleParser mixedLemmas ["3"; "1"; "2"; "4"] = Ok files
    ∧ ∃ adjs vbs,
        files = [("adjectives.json", AdjectiveFile adjs); ("verbs.json", VerbFile vbs)]
        ∧ Forall (λ e, Class e = "adjektiv"
                       ∧ dom (Forms e) = list_to_set adjektivLabels) adjs
        ∧ Forall (λ e, vClass e = "verb"
                       ∧ dom (vForms e) = list_to_set verbLabels) vbs.
Proof.
  eexists. split; [by vm_compute|].
  apply (C9_category_files sampleParser mixedLemmas ["3"; "1"; "2"; "4"]).
  by vm_compute.
Defined.

(** C2, evaluated: the input holds two verb lemmas under the keys "1" and
    "2".  Both ["1"; "2"] and ["2"; "1"] are orders in which [range] may
    visit the map, and the entries of "verbs.json" come out in the order
    visited, so the two runs write different files. *)
Theorem C2_category_output_follows_range_order :
  isRangeOrder twoVerbs ["1"; "2"] ∧ isRangeOrder twoVerbs ["2"; "1"]
  ∧ main sampleParser twoVerbs ["1"; "2"] ≠ main sampleParser twoVerbs ["2"; "1"].
Proof.
  split; [by vm_compute|]. split.
  { unfold isRangeOrder. vm_compute. apply perm_swap. }
  set (firstFinita (r : result (list WrittenFile)) :=
         match r with
         | Ok [_; (_, VerbFile (e :: _))] => vForms e !! "Finita former"
         | _ => None
         end).
  intros H. apply (f_equal firstFinita) in H. vm_compute in H. discriminate H.
Qed.

End CategoryClaims.

(** ** The worker pool *)

Module PoolFacts.
Import WorkerPool.

Section Pool.

Context {Job Result : Type}.
Variable work : Job → list Result.
Variable failed : Result → bool.
Variable channelBufferSize : nat.

Local Abbreviation step := (step work failed channelBufferSize).
Local Abbreviation run := (run work failed channelBufferSize).
Local Abbreviation outstanding := (outstanding work).
Local Abbreviation kept := (filter (λ res, failed res = false)).

Lemma run_app (s1 s2 : list Action) (st : State) :
  run (s1 ++ s2) st = run s1 st ≫= run s2.
Proof.
  revert st. induction s1 as [|a s1 IH]; intros st; simpl; [done|].
  destruct (step a st); [apply IH|done].
Qed.

(** Replacing the sends worker [w] has in hand. *)
Lemma concat_insert (ws : list (list Result)) (w : nat) (old new : list Result) :
  ws !! w = Some old →
  ∃ others, concat ws ≡ₚ old ++ others ∧ concat (<[w:=new]> ws) ≡ₚ new ++ others.
Proof.
  intros Hw. exists (concat (take w ws) ++ concat (drop (S w) ws)). split.
  - rewrite <-(take_drop_middle ws w old Hw) at 1.
    rewrite concat_app. simpl. solve_Permutation.
  - rewrite insert_take_drop by (by eapply lookup_lt_Some).
    rewrite concat_app. simpl. solve_Permutation.
Qed.

(** No action loses or invents a result: what is collected plus what is
    outstanding and not failed stays the same up to order. *)
Lemma step_conserves (a : Action) (st st' : State) :
  step a st = Some st' →
  collectedResults st' ++ kept (outstanding st')
  ≡ₚ collectedResults st ++ kept (outstanding st).
Proof.
  unfold outstanding. destruct a as [|w|w|]; simpl; intros Hs.
  - destruct (source st) as [|j rest] eqn:Hsrc; [done|].
    case_decide; [|done]. injection Hs as <-. simpl.
    by rewrite <-(assoc_L (++) (jobs st) [j] rest).
  - destruct (workers st !! w) as [[|? ?]|] eqn:Hw; try done.
    destruct (jobs st) as [|j rest] eqn:Hj; [done|].
    injection Hs as <-. simpl. apply Permutation_app_head.
    apply (filter_Permutation _).
    destruct (concat_insert _ _ _ (work j) Hw) as (others & -> & ->).
    solve_Permutation.
  - destruct (workers st !! w) as [[|r pending]|] eqn:Hw; try done.
    case_decide; [|done]. injection Hs as <-. simpl.
    apply Permutation_app_head, (filter_Permutation _).
    destruct (concat_insert _ _ _ pending Hw) as (others & -> & ->).
    solve_Permutation.
  - destruct (results st) as [|res rest] eqn:Hr; [done|].
    injection Hs as <-. simpl. rewrite filter_cons.
    destruct (failed res) eqn:Hf.
    + by rewrite decide_False by done.
    + rewrite decide_True by done. solve_Permutation.
Qed.

Lemma run_conserves (schedule : list Action) (st st' : State) :
  run schedule st = Some st' →
  collectedResults st' ++ kept (outstanding st')
  ≡ₚ collectedResults st ++ kept (outstanding st).
Proof.
  revert st. induction schedule as [|a schedule IH]; intros st; simpl.
  - by intros [= ->].
  - destruct (step a st) as [st1|] eqn:Hs; [|done].
    intros H. rewrite (IH _ H). by apply (step_conserves a).
Qed.

Lemma concat_replicate_nil (n : nat) : concat (replicate n (@nil Result)) = [].
Proof. induction n as [|n IH]; [done|]. exact IH. Qed.

Lemma finished_outstanding (st : State) : finished st = true → outstanding st = [].
Proof.
  unfold finished, outstanding.
  intros [(-> & -> & ->)%bool_decide_eq_true Hw]%andb_true_iff. simpl.
  rewrite app_nil_r. induction (workers st) as [|[|r p] ws IH]; [done| |done].
  simpl in *. auto.
Qed.

(** Whatever the schedule, a complete run collects the results of all jobs
    that did not fail, each once, in some order. *)
Theorem run_collects (numWorkers : nat) (all : list Job)
    (schedule : list Action) (st : State) :
  run schedule (initial numWorkers all) = Some st → finished st = true →
  collectedResults st ≡ₚ kept (all ≫= work).
Proof.
  intros Hr Hf. apply run_conserves in Hr.
  rewrite (finished_outstanding _ Hf) in Hr. unfold outstanding in Hr.
  simpl in Hr. rewrite concat_replicate_nil in Hr. simpl in Hr.
  by rewrite app_nil_r in Hr.
Qed.

(** Every send of the schedule is one of the sends the jobs call for. *)
Lemma step_sends (a : Action) (st st' : State) :
  step a st = Some st' →
  ((if isSend a then 1 else 0) + length (concat (workers st'))
   + length ((jobs st' ++ source st') ≫= work)
   = length (concat (workers st)) + length ((jobs st ++ source st) ≫= work))%nat.
Proof.
  destruct a as [|w|w|]; simpl; intros Hs.
  - destruct (source st) as [|j rest] eqn:Hsrc; [done|].
    case_decide; [|done]. injection Hs as <-. simpl.
    by rewrite <-(assoc_L (++) (jobs st) [j] rest).
  - destruct (workers st !! w) as [[|? ?]|] eqn:Hw; try done.
    destruct (jobs st) as [|j rest] eqn:Hj; [done|].
    injection Hs as <-. simpl.
    destruct (concat_insert _ _ _ (work j) Hw) as (others & -> & ->).
    rewrite !length_app. unfold mbind. simpl. lia.
  - destruct (workers st !! w) as [[|r pending]|] eqn:Hw; try done.
    case_decide; [|done]. injection Hs as <-. simpl.
    destruct (concat_insert _ _ _ pending Hw) as (others & -> & ->).
    rewrite !length_app. simpl. lia.
  - destruct (results st) as [|res rest] eqn:Hr; [done|].
    by injection Hs as <-.
Qed.

Lemma run_sends (schedule : list Action) (st st' : State) :
  run schedule st = Some st' →
  (sendCount schedule + length (concat (workers st'))
   + length ((jobs st' ++ source st') ≫= work)
   = length (concat (workers st)) + length ((jobs st ++ source st) ≫= work))%nat.
Proof.
  revert st. induction schedule as [|a schedule IH]; intros st; simpl.
  - by intros [= ->].
  - destruct (step a st) as [st1|] eqn:Hs; [|done].
    intros H. apply IH in H. apply step_sends in Hs.
    unfold sendCount in *. rewrite filter_cons.
    destruct (isSend a); [rewrite decide_True by done|rewrite decide_False by done];
      simpl; lia.
Qed.

(** In a complete run the workers send exactly as often as the jobs call
    for. *)
Theorem run_send_count (numWorkers : nat) (all : list Job)
    (schedule : list Action) (st : State) :
  run schedule (initial numWorkers all) = Some st → finished st = true →
  sendCount schedule = length (all ≫= work).
Proof.
  intros Hr Hf. apply run_sends in Hr. pose proof (finished_outstanding _ Hf) as Ho.
  unfold outstanding in Ho. apply app_eq_nil in Ho as [_ Ho].
  apply app_eq_nil in Ho as [Hw Hj]. rewrite Hw, Hj in Hr. simpl in Hr.
  rewrite concat_replicate_nil in Hr. simpl in Hr. lia.
Qed.

(** *** A complete run exists: one job after the other on worker 0 *)

Lemma run_pending (pending : list Result) (n : nat) (todo : list Job)
    (collected : list Result) :
  (0 < channelBufferSize)%nat →
  run (pending ≫= λ _, [Send 0; Collect])
      {| source := todo; jobs := [];
         workers := <[0%nat := pending]> (replicate (S n) []);
         results := []; collectedResults := collected |}
  = Some (idle (S n) todo (collected ++ kept pending)).
Proof.
  intros Hcap. revert collected.
  induction pending as [|r pending IH]; intros collected.
  - simpl. unfold idle. by rewrite app_nil_r.
  - simpl. case_decide; [|simpl in *; lia]. simpl.
    rewrite filter_cons. destruct (failed r) eqn:Hf.
    + rewrite decide_False by done. apply IH.
    + rewrite decide_True by done. rewrite IH. by rewrite <-app_assoc.
Qed.

Lemma run_scheduleJob (j : Job) (n : nat) (todo : list Job) (collected : list Result) :
  (0 < channelBufferSize)%nat →
  run (scheduleJob work j) (idle (S n) (j :: todo) collected)
  = Some (idle (S n) todo (collected ++ kept (work j))).
Proof.
  intros Hcap. unfold scheduleJob. rewrite run_app. simpl.
  case_decide; [|simpl in *; lia]. simpl. by apply run_pending.
Qed.

Lemma run_sequentialSchedule (all : list Job) (n : nat) (collected : list Result) :
  (0 < channelBufferSize)%nat →
  run (sequentialSchedule work all) (idle (S n) all collected)
  = Some (idle (S n) [] (collected ++ kept (all ≫= work))).
Proof.
  intros Hcap. revert collected. induction all as [|j all IH]; intros collected.
  - simpl. by rewrite app_nil_r.
  - unfold sequentialSchedule. rewrite bind_cons, run_app.
    rewrite run_scheduleJob by done. simpl. unfold sequentialSchedule in IH.
    rewrite IH. by rewrite filter_app, app_assoc.
Qed.

Lemma idle_finished (n : nat) (collected : list Result) :
  finished (idle n (@nil Job) collected) = true.
Proof.
  unfold finished, idle. simpl. by induction n.
Qed.

(** With at least one worker and room in the channels, the pool has a
    complete run. *)
Theorem sequential_run_finishes (numWorkers : nat) (all : list Job) :
  (0 < numWorkers)%nat → (0 < channelBufferSize)%nat →
  ∃ st, run (sequentialSchedule work all) (initial numWorkers all) = Some st
        ∧ finished st = true.
Proof.
  intros Hn Hcap. destruct numWorkers as [|n]; [lia|].
  eexists. split; [by apply run_sequentialSchedule|]. apply idle_finished.
Qed.

End Pool.

End PoolFacts.

(** ** [int] arithmetic within range *)

Module IntFacts.
Import GoInt.

Lemma wrap_small (z : Z) : minInt ≤ z ≤ maxInt → wrap z = z.
Proof.
  unfold wrap, minInt, maxInt, intSize. intros H.
  rewrite Z.mod_small; lia.
Qed.

Lemma incr_small (i : Z) : minInt ≤ i < maxInt → incr i = i + 1.
Proof. intros H. apply wrap_small. lia. Qed.

Lemma minInt_neg : minInt < 0.
Proof. done. Qed.

End IntFacts.

(** ** [sort.Slice] by a key *)

Module SortFacts.
Import Pipeline.

Section ByKey.

Context {A : Type} (key : A → Z) (less : A → A → bool).
Hypothesis less_key : ∀ a b, less a b = (key a <? key b).

Local Abbreviation before := (λ a b : A, key a < key b).

Lemma insertSorted_perm (x : A) (l : list A) : insertSorted less x l ≡ₚ x :: l.
Proof.
  induction l as [|y l IH]; simpl; [done|].
  destruct (less x y); [done|]. rewrite IH. apply perm_swap.
Qed.

Lemma sortSlice_perm (l : list A) : sortSlice less l ≡ₚ l.
Proof.
  induction l as [|x l IH]; simpl; [done|].
  rewrite insertSorted_perm. by rewrite IH.
Qed.

Lemma insertSorted_sorted (x : A) (l : list A) :
  StronglySorted before l → key x ∉ key <$> l →
  StronglySorted before (insertSorted less x l).
Proof.
  induction 1 as [|y l Hl IH Hy]; intros Hx; simpl.
  - by repeat constructor.
  - rewrite less_key. rewrite fmap_cons, not_elem_of_cons in Hx.
    destruct Hx as [Hxy Hx]. destruct (Z.ltb_spec (key x) (key y)).
    + constructor; [by constructor|]. constructor; [done|].
      eapply Forall_impl; [exact Hy|]. simpl. lia.
    + constructor; [by apply IH|]. rewrite insertSorted_perm.
      constructor; [lia|done].
Qed.

Lemma sortSlice_sorted (l : list A) :
  NoDup (key <$> l) → StronglySorted before (sortSlice less l).
Proof.
  induction l as [|x l IH]; [constructor|].
  rewrite fmap_cons, NoDup_cons. intros [Hx Hl].
  apply (insertSorted_sorted x (sortSlice less l)); [by apply IH|].
  by rewrite sortSlice_perm.
Qed.

Lemma sorted_keys_NoDup (l : list A) :
  StronglySorted before l → NoDup (key <$> l).
Proof.
  induction 1 as [|x l Hl IH Hx]; csimpl; constructor; [|done].
  intros (y & Hk & Hy)%list_elem_of_fmap.
  rewrite Forall_forall in Hx. specialize (Hx y Hy). simpl in Hx. lia.
Qed.

(** A slice with pairwise different keys has one ordered arrangement, and
    sorting finds it from any arrangement. *)
Theorem sortSlice_unique (l ordered : list A) :
  l ≡ₚ ordered → StronglySorted before ordered → sortSlice less l = ordered.
Proof.
  intros Hp Hs. apply (StronglySorted_unique_strong before).
  - simpl. intros; lia.
  - apply sortSlice_sorted. rewrite Hp. by apply sorted_keys_NoDup.
  - done.
  - by rewrite sortSlice_perm.
Qed.

Lemma sorted_by_key (l : list A) :
  StronglySorted Z.lt (key <$> l) → StronglySorted before l.
Proof.
  induction l as [|x l IH]; csimpl; [constructor|].
  intros [Hx Hl]%StronglySorted_cons. constructor; [by apply IH|].
  by rewrite Forall_fmap in Hx.
Qed.

Lemma sorted_filter (R : relation A) (P : A → Prop) `{∀ x, Decision (P x)}
    (l : list A) :
  StronglySorted R l → StronglySorted R (filter P l).
Proof.
  induction 1 as [|x l Hl IH Hx]; [constructor|].
  rewrite filter_cons. case_decide; [|done].
  constructor; [done|]. apply Forall_forall. intros y [_ Hy]%list_elem_of_filter.
  rewrite Forall_forall in Hx. auto.
Qed.

End ByKey.

End SortFacts.

(** ** The dispatch loops *)

Module DispatchFacts.
Import GoInt Pipeline IntFacts.

Lemma job_eta (job : Job) : job = {| Index := Index job; Data := Data job |}.
Proof. by destruct job. Qed.

(** The clean stage gives every decodable element its position in the
    array, and dispatches nothing else. *)
Lemma clean_dispatch_member (decoder : Decoder) (i : Z) (job : Job) :
  0 ≤ i → i + Z.of_nat (length decoder) ≤ maxInt →
  job ∈ CleanStage.dispatch i decoder
  ↔ i ≤ Index job
    ∧ decoder !! Z.to_nat (Index job - i) = Some (Decodable (Data job)).
Proof.
  revert i. induction decoder as [|[entry|err] decoder IH]; intros i Hi Hlen.
  - simpl. rewrite elem_of_nil. split; [done|by intros [_ ?]].
  - simpl in *. rewrite incr_small by (pose proof minInt_neg; lia).
    rewrite elem_of_cons, IH by lia. split.
    + intros [->|[Hj Hl]]; simpl.
      * by rewrite Z.sub_diag.
      * split; [lia|].
        replace (Z.to_nat (Index job - i)) with (S (Z.to_nat (Index job - (i + 1)))) by lia.
        done.
    + intros [Hj Hl]. destruct (decide (Index job = i)) as [Heq|Hne].
      * left. rewrite Heq, Z.sub_diag in Hl. simpl in Hl.
        injection Hl as ->. rewrite (job_eta job). by rewrite Heq.
      * right. split; [lia|].
        replace (Z.to_nat (Index job - i)) with (S (Z.to_nat (Index job - (i + 1)))) in Hl by lia.
        done.
  - simpl in *. rewrite incr_small by (pose proof minInt_neg; lia).
    rewrite IH by lia. split.
    + intros [Hj Hl]. split; [lia|].
      replace (Z.to_nat (Index job - i)) with (S (Z.to_nat (Index job - (i + 1)))) by lia.
      done.
    + intros [Hj Hl]. destruct (decide (Index job = i)) as [Heq|Hne].
      * by rewrite Heq, Z.sub_diag in Hl.
      * split; [lia|].
        replace (Z.to_nat (Index job - i)) with (S (Z.to_nat (Index job - (i + 1)))) in Hl by lia.
        done.
Qed.

(** In both stages the indices of the dispatched jobs increase strictly and
    stay within the positions of the array. *)
Lemma clean_dispatch_increasing (decoder : Decoder) (i : Z) :
  0 ≤ i → i + Z.of_nat (length decoder) ≤ maxInt →
  StronglySorted Z.lt (Index <$> CleanStage.dispatch i decoder)
  ∧ Forall (λ k, i ≤ k < i + Z.of_nat (length decoder))
      (Index <$> CleanStage.dispatch i decoder).
Proof.
  revert i. induction decoder as [|[entry|err] decoder IH]; intros i Hi Hlen.
  - split; constructor.
  - simpl in *. rewrite incr_small by (pose proof minInt_neg; lia).
    destruct (IH (i + 1)) as [Hs Hb]; [lia..|]. csimpl. split.
    + constructor; [done|]. eapply Forall_impl; [exact Hb|]. simpl. lia.
    + constructor; [simpl; lia|]. eapply Forall_impl; [exact Hb|]. simpl. lia.
  - simpl in *. rewrite incr_small by (pose proof minInt_neg; lia).
    destruct (IH (i + 1)) as [Hs Hb]; [lia..|]. split; [done|].
    eapply Forall_impl; [exact Hb|]. simpl. lia.
Qed.

Lemma flatten_dispatch_increasing (decoder : Decoder) (i : Z) :
  0 ≤ i → i + Z.of_nat (length decoder) ≤ maxInt →
  StronglySorted Z.lt (Index <$> FlattenStage.dispatch i decoder)
  ∧ Forall (λ k, i ≤ k < i + Z.of_nat (length decoder))
      (Index <$> FlattenStage.dispatch i decoder).
Proof.
  remember (length decoder) as n eqn:Hn. revert decoder i Hn.
  induction n as [n IH] using lt_wf_ind. intros decoder i -> Hi Hlen.
  destruct decoder as [|[entry|err] decoder].
  - split; constructor.
  - simpl in *. rewrite incr_small by (pose proof minInt_neg; lia).
    destruct (IH (length decoder) ltac:(lia) decoder (i + 1)) as [Hs Hb];
      [done|lia..|].
    csimpl. split.
    + constructor; [done|]. eapply Forall_impl; [exact Hb|]. simpl. lia.
    + constructor; [simpl; lia|]. eapply Forall_impl; [exact Hb|]. simpl. lia.
  - simpl in *. rewrite incr_small by (pose proof minInt_neg; lia).
    destruct decoder as [|skipped decoder].
    + split; constructor.
    + simpl in *.
      destruct (IH (length decoder) ltac:(lia) decoder (i + 1)) as [Hs Hb];
        [done|lia..|].
      split; [done|]. eapply Forall_impl; [exact Hb|]. simpl. lia.
Qed.

(** *** The dispatched jobs and the documents of the array *)

Lemma documents_member (input : Decoder) (job : Job) :
  job ∈ Expected.documents input
  ↔ ∃ p : nat, input !! p = Some (Decodable (Data job)) ∧ Index job = Z.of_nat p.
Proof.
  unfold Expected.documents. rewrite list_elem_of_omap. split.
  - intros ([p element] & Hin & Hjob).
    apply elem_of_lookup_imap in Hin as (p' & element' & [= -> ->] & Hl).
    destruct element' as [entry|err]; [|done]. injection Hjob as <-.
    by exists p'.
  - intros (p & Hl & Hp). exists (p, Decodable (Data job)). split.
    + apply elem_of_lookup_imap. by exists p, (Decodable (Data job)).
    + simpl. rewrite <-Hp. by rewrite <-job_eta.
Qed.

Lemma documents_from (input : Decoder) (n : nat) :
  omap (uncurry Expected.documentAt) (imap (λ p, pair (n + p)%nat) input)
  = match input with
    | [] => []
    | element :: input' =>
        option_list (Expected.documentAt n element)
        ++ omap (uncurry Expected.documentAt) (imap (λ p, pair (S n + p)%nat) input')
    end.
Proof.
  destruct input as [|element input]; [done|].
  rewrite imap_cons. cbn [omap list_omap uncurry]. rewrite Nat.add_0_r.
  rewrite (imap_ext _ (λ p, pair (S n + p)%nat))
    by (intros p x _; simpl; f_equal; lia).
  by destruct (Expected.documentAt n element).
Qed.

(** The clean stage dispatches the documents of the array. *)
Lemma clean_dispatch_from (input : Decoder) (n : nat) :
  Z.of_nat n + Z.of_nat (length input) ≤ maxInt →
  CleanStage.dispatch (Z.of_nat n) input
  = omap (uncurry Expected.documentAt) (imap (λ p, pair (n + p)%nat) input).
Proof.
  revert n. induction input as [|[entry|err] input IH]; intros n Hlen;
    rewrite documents_from; [done| |].
  - simpl in *. rewrite incr_small by (pose proof minInt_neg; lia).
    replace (Z.of_nat n + 1) with (Z.of_nat (S n)) by lia. by rewrite IH by lia.
  - simpl in *. rewrite incr_small by (pose proof minInt_neg; lia).
    replace (Z.of_nat n + 1) with (Z.of_nat (S n)) by lia. by rewrite IH by lia.
Qed.

Lemma clean_dispatch_documents (input : Decoder) :
  Z.of_nat (length input) ≤ maxInt →
  CleanStage.dispatch 0 input = Expected.documents input.
Proof. intros Hlen. by apply (clean_dispatch_from input 0). Qed.

(** So does the flatten stage where no element but the last fails to
    decode. *)
Lemma flatten_dispatch_from (input : Decoder) (n : nat) :
  Expected.decodesUpToLast input = true →
  Z.of_nat n + Z.of_nat (length input) ≤ maxInt →
  FlattenStage.dispatch (Z.of_nat n) input
  = omap (uncurry Expected.documentAt) (imap (λ p, pair (n + p)%nat) input).
Proof.
  unfold Expected.decodesUpToLast.
  revert n. induction input as [|[entry|err] input IH]; intros n H Hlen;
    rewrite documents_from; [done| |].
  - cbn [FlattenStage.dispatch length] in *.
    rewrite incr_small by (pose proof minInt_neg; lia).
    replace (Z.of_nat n + 1) with (Z.of_nat (S n)) by lia. rewrite IH; [done| |lia].
    destruct input; [done|]. by apply andb_prop in H as [_ H].
  - destruct input; [done|discriminate H].
Qed.

Lemma flatten_dispatch_documents (input : Decoder) :
  Expected.decodesUpToLast input = true →
  Z.of_nat (length input) ≤ maxInt →
  FlattenStage.dispatch 0 input = Expected.documents input.
Proof. intros H Hlen. by apply (flatten_dispatch_from input 0). Qed.

End DispatchFacts.

(** ** The workers *)

Module WorkerFacts.
Import goquery Pipeline.

Section WithParser.

Variable NewDocumentFromReader : string → result Node.
Variable Render : Node → result string.

Lemma clean_worker_one (job : Job) :
  ∃ res, CleanStage.worker NewDocumentFromReader Render job = [res]
         ∧ CleanStage.Index res = Index job.
Proof.
  unfold CleanStage.worker. destruct (NewDocumentFromReader _) as [doc|err]; [|eauto].
  destruct (Length _ =? 0); [eauto|]. destruct (Html _ _); eauto.
Qed.

Lemma flatten_worker_one (job : Job) :
  ∃ res, FlattenStage.worker NewDocumentFromReader Render job = [res]
         ∧ FlattenStage.Index res = Index job.
Proof.
  unfold FlattenStage.worker. destruct (NewDocumentFromReader _) as [doc|err]; [|eauto].
  destruct (Length _ =? 0); eauto.
Qed.

Lemma clean_work_keys (all : list Job) :
  CleanStage.Index <$> (all ≫= CleanStage.worker NewDocumentFromReader Render)
  = Index <$> all.
Proof.
  induction all as [|job all IH]; [done|]. rewrite bind_cons, fmap_app, IH.
  destruct (clean_worker_one job) as (res & -> & Hk). csimpl. by rewrite Hk.
Qed.

Lemma flatten_work_keys (all : list Job) :
  FlattenStage.Index <$> (all ≫= FlattenStage.worker NewDocumentFromReader Render)
  = Index <$> all.
Proof.
  induction all as [|job all IH]; [done|]. rewrite bind_cons, fmap_app, IH.
  destruct (flatten_worker_one job) as (res & -> & Hk). csimpl. by rewrite Hk.
Qed.

End WithParser.

End WorkerFacts.

(** ** Numbering the output *)

Module AssemblyFacts.
Import GoInt Pipeline IntFacts Expected.

Lemma numbered_is_Some {V : Type} (values : list V) (k : Z) :
  is_Some (numbered values k) ↔ 1 ≤ k ≤ Z.of_nat (length values).
Proof.
  unfold numbered. case_decide as Hk.
  - split; [done|]. intros _. apply lookup_lt_is_Some. lia.
  - split; [by intros [? ?]|done].
Qed.

(** The clean stage: the loop puts the values under consecutive keys. *)
Lemma clean_assemble_from (rs : list CleanStage.Result) (m : gmap Z string) (key : Z) :
  0 ≤ key → key + Z.of_nat (length rs) ≤ maxInt →
  ∀ k, (foldl CleanStage.assembleStep (m, key) rs).1 !! k
       = if decide (key ≤ k < key + Z.of_nat (length rs))
         then CleanStage.CleanedHTML <$> rs !! Z.to_nat (k - key)
         else m !! k.
Proof.
  revert m key. induction rs as [|res rs IH]; intros m key Hk Hlen k.
  - simpl. case_decide; [lia|done].
  - simpl in *. rewrite incr_small by (pose proof minInt_neg; lia).
    rewrite IH by lia. rewrite lookup_insert.
    repeat case_decide; try lia; try done;
      first [ subst key; by rewrite Z.sub_diag
            | by replace (Z.to_nat (k - key)) with (S (Z.to_nat (k - (key + 1)))) by lia ].
Qed.

Lemma clean_assemble_numbered (rs : list CleanStage.Result) :
  Z.of_nat (length rs) < maxInt →
  ∀ k, CleanStage.assemble rs !! k = numbered (CleanStage.CleanedHTML <$> rs) k.
Proof.
  intros Hlen k. unfold CleanStage.assemble, numbered.
  rewrite clean_assemble_from by lia. rewrite length_fmap, list_lookup_fmap.
  repeat case_decide; try lia; done.
Qed.

(** The flatten stage: the two nested loops are one loop over the lemmas of
    all results. *)
Lemma flatten_lemmaEntry_fold (familyID : Z) (hs : list string)
    (st : FlattenStage.Assembly) :
  foldl (FlattenStage.lemmaEntry familyID) st hs
  = foldl entryStep st
      ((λ h, {| FlattenStage.HTML := h; FlattenStage.FamilyID := familyID |}) <$> hs).
Proof.
  revert st. induction hs as [|h hs IH]; intros st; [done|].
  csimpl. rewrite IH. by destruct st as [[m key] total].
Qed.

Lemma flatten_assemble_fold (rs : list FlattenStage.Result) (st : FlattenStage.Assembly) :
  Forall (λ res, 0 ≤ FlattenStage.Index res < maxInt) rs →
  foldl FlattenStage.assembleStep st rs = foldl entryStep st (lemmaEntries rs).
Proof.
  intros Hb. revert st. induction Hb as [|res rs Hres Hb IH]; intros st; [done|].
  unfold lemmaEntries. rewrite bind_cons, foldl_app. simpl. rewrite IH.
  unfold FlattenStage.assembleStep. rewrite flatten_lemmaEntry_fold.
  rewrite wrap_small by (pose proof minInt_neg; lia). done.
Qed.

Lemma entryStep_from (es : list FlattenStage.LemmaOutput)
    (m : gmap Z FlattenStage.LemmaOutput) (key total : Z) :
  0 ≤ key → key + Z.of_nat (length es) ≤ maxInt →
  ∀ k, (foldl entryStep (m, key, total) es).1.1 !! k
       = if decide (key ≤ k < key + Z.of_nat (length es))
         then es !! Z.to_nat (k - key)
         else m !! k.
Proof.
  revert m key total. induction es as [|e es IH]; intros m key total Hk Hlen k.
  - simpl. case_decide; [lia|done].
  - simpl in *. rewrite incr_small by (pose proof minInt_neg; lia).
    rewrite IH by lia. rewrite lookup_insert.
    repeat case_decide; try lia; try done;
      first [ subst key; by rewrite Z.sub_diag
            | by replace (Z.to_nat (k - key)) with (S (Z.to_nat (k - (key + 1)))) by lia ].
Qed.

Lemma flatten_assemble_numbered (rs : list FlattenStage.Result) :
  Forall (λ res, 0 ≤ FlattenStage.Index res < maxInt) rs →
  Z.of_nat (length (lemmaEntries rs)) < maxInt →
  ∀ k, FlattenStage.assemble rs !! k = numbered (lemmaEntries rs) k.
Proof.
  intros Hb Hlen k. unfold FlattenStage.assemble, numbered.
  rewrite flatten_assemble_fold by done. rewrite entryStep_from by lia.
  repeat case_decide; try lia; done.
Qed.

End AssemblyFacts.

(** ** The two pipelines from the decoded array to the output map *)

Module PipelineFacts.
Import GoInt goquery Pipeline Expected WorkerPool.
Import IntFacts SortFacts PoolFacts DispatchFacts WorkerFacts AssemblyFacts.

Lemma sorted_lookup {A : Type} (R : relation A) (l : list A) (i j : nat) (a b : A) :
  StronglySorted R l → l !! i = Some a → l !! j = Some b → (i < j)%nat → R a b.
Proof.
  intros Hs. revert i j. induction Hs as [|x l Hl IH Hx]; intros i j Hi Hj Hij.
  - by rewrite lookup_nil in Hi.
  - destruct j as [|j]; [lia|]. destruct i as [|i]; simpl in *.
    + injection Hi as ->. rewrite Forall_forall in Hx.
      apply Hx. by eapply list_elem_of_lookup_2.
    + apply (IH i j); [done..|lia].
Qed.

Lemma workerCount_pos (NumCPU : Z) : (0 < Z.to_nat (workerCount NumCPU))%nat.
Proof.
  unfold workerCount, numWorkers. simpl.
  destruct (Z.ltb_spec NumCPU 1); lia.
Qed.

Lemma lemmaEntries_family (rs : list FlattenStage.Result) (e : FlattenStage.LemmaOutput) :
  e ∈ lemmaEntries rs →
  ∃ res, res ∈ rs ∧ FlattenStage.FamilyID e = FlattenStage.Index res + 1
         ∧ FlattenStage.HTML e ∈ FlattenStage.LemmaHTMLs res.
Proof.
  unfold lemmaEntries. intros (res & He & Hres)%list_elem_of_bind.
  apply list_elem_of_fmap in He as (h & -> & Hh). by exists res.
Qed.

(** Results in index order give entries whose family numbers never
    decrease. *)
Lemma lemmaEntries_sorted (rs : list FlattenStage.Result) :
  StronglySorted (λ a b, FlattenStage.Index a < FlattenStage.Index b) rs →
  StronglySorted (λ a b, FlattenStage.FamilyID a ≤ FlattenStage.FamilyID b)
    (lemmaEntries rs).
Proof.
  induction 1 as [|res rs Hrs IH Hres]; [constructor|].
  unfold lemmaEntries. rewrite bind_cons. apply StronglySorted_app; repeat split.
  - intros e1 e2 (h & -> & _)%list_elem_of_fmap (r2 & Hr2 & -> & _)%lemmaEntries_family.
    rewrite Forall_forall in Hres. specialize (Hres r2 Hr2). simpl in *. lia.
  - induction (FlattenStage.LemmaHTMLs res) as [|h hs IHh]; csimpl; constructor;
      [done|]. apply Forall_fmap, Forall_true. simpl. lia.
  - exact IH.
Qed.

Section WithParser.

Variable NewDocumentFromReader : string → result Node.
Variable Render : Node → result string.

Local Abbreviation cleanWorker := (CleanStage.worker NewDocumentFromReader Render).
Local Abbreviation flattenWorker := (FlattenStage.worker NewDocumentFromReader Render).

Lemma cleanResults_sorted (input : Decoder) :
  Z.of_nat (length input) ≤ maxInt →
  StronglySorted (λ a b, CleanStage.Index a < CleanStage.Index b)
    (cleanResults NewDocumentFromReader Render input).
Proof.
  intros Hlen. unfold cleanResults. apply sorted_filter, sorted_by_key.
  rewrite clean_work_keys. by apply clean_dispatch_increasing.
Qed.

Lemma flattenResults_sorted (input : Decoder) :
  Z.of_nat (length input) ≤ maxInt →
  StronglySorted (λ a b, FlattenStage.Index a < FlattenStage.Index b)
    (flattenResults NewDocumentFromReader Render input).
Proof.
  intros Hlen. unfold flattenResults. apply sorted_filter, sorted_by_key.
  rewrite flatten_work_keys. by apply flatten_dispatch_increasing.
Qed.

Lemma flattenResults_bounds (input : Decoder) :
  Z.of_nat (length input) ≤ maxInt →
  Forall (λ res, 0 ≤ FlattenStage.Index res < maxInt)
    (flattenResults NewDocumentFromReader Render input).
Proof.
  intros Hlen. apply Forall_forall. intros res [_ Hres]%list_elem_of_filter.
  destruct (flatten_dispatch_increasing input 0) as [_ Hb]; [lia..|].
  rewrite <-(flatten_work_keys NewDocumentFromReader Render) in Hb.
  rewrite Forall_fmap, Forall_forall in Hb. specialize (Hb res Hres).
  simpl in Hb. lia.
Qed.

(** Whatever the schedule, what is sorted and assembled is the expected
    sequence of results. *)
Lemma clean_main_assembles (NumCPU : Z) (input : Decoder)
    (schedule : list Action) (out : gmap Z string) :
  Z.of_nat (length input) ≤ maxInt →
  CleanStage.main NewDocumentFromReader Render NumCPU input schedule = Some out →
  out = CleanStage.assemble (cleanResults NewDocumentFromReader Render input).
Proof.
  intros Hlen. unfold CleanStage.main.
  destruct (run _ _ _ _ _) as [st|] eqn:Hrun; [|done].
  destruct (finished st) eqn:Hfin; [|done]. intros [= <-]. f_equal.
  apply (sortSlice_unique CleanStage.Index); [done| |by apply cleanResults_sorted].
  by apply (run_collects _ _ _ _ _ _ _ Hrun).
Qed.

Lemma flatten_main_assembles (NumCPU : Z) (input : Decoder)
    (schedule : list Action) (out : gmap Z FlattenStage.LemmaOutput) :
  Z.of_nat (length input) ≤ maxInt →
  FlattenStage.main NewDocumentFromReader Render NumCPU input schedule = Some out →
  out = FlattenStage.assemble (flattenResults NewDocumentFromReader Render input).
Proof.
  intros Hlen. unfold FlattenStage.main.
  destruct (run _ _ _ _ _) as [st|] eqn:Hrun; [|done].
  destruct (finished st) eqn:Hfin; [|done]. intros [= <-]. f_equal.
  apply (sortSlice_unique FlattenStage.Index); [done| |by apply flattenResults_sorted].
  by apply (run_collects _ _ _ _ _ _ _ Hrun).
Qed.

(** Both programs have a complete run on every input. *)
Theorem clean_main_completes (NumCPU : Z) (input : Decoder) :
  ∃ schedule out,
    CleanStage.main NewDocumentFromReader Render NumCPU input schedule = Some out.
Proof.
  destruct (sequential_run_finishes cleanWorker CleanStage.failed
              (Z.to_nat channelBufferSize) (Z.to_nat (workerCount NumCPU))
              (CleanStage.dispatch 0 input)) as (st & Hrun & Hfin).
  { apply workerCount_pos. } { unfold channelBufferSize. lia. }
  eexists _, _. unfold CleanStage.main. by rewrite Hrun, Hfin.
Qed.

Theorem flatten_main_completes (NumCPU : Z) (input : Decoder) :
  ∃ schedule out,
    FlattenStage.main NewDocumentFromReader Render NumCPU input schedule = Some out.
Proof.
  destruct (sequential_run_finishes flattenWorker FlattenStage.failed
              (Z.to_nat channelBufferSize) (Z.to_nat (workerCount NumCPU))
              (FlattenStage.dispatch 0 input)) as (st & Hrun & Hfin).
  { apply workerCount_pos. } { unfold channelBufferSize. lia. }
  eexists _, _. unfold FlattenStage.main. by rewrite Hrun, Hfin.
Qed.

(** The output of the clean stage: the kept HTML of the documents under the
    keys 1, 2, ... in the order of the input, whatever the schedule. *)
Theorem clean_output_in_input_order (NumCPU : Z) (input : Decoder)
    (schedule : list Action) (out : gmap Z string) :
  Z.of_nat (length input) < maxInt →
  CleanStage.main NewDocumentFromReader Render NumCPU input schedule = Some out →
  ∀ k, out !! k
       = numbered (CleanStage.CleanedHTML
                     <$> cleanResults NewDocumentFromReader Render input) k.
Proof.
  intros Hlen Hmain k.
  rewrite (clean_main_assembles _ _ _ _ (Z.lt_le_incl _ _ Hlen) Hmain).
  apply clean_assemble_numbered.
  assert (length (cleanResults NewDocumentFromReader Render input) ≤ length input)%nat;
    [|lia].
  unfold cleanResults. etrans; [apply length_filter|].
  rewrite <-(length_fmap CleanStage.Index), clean_work_keys, length_fmap.
  clear. generalize 0. induction input as [|[e|e] input IH]; intros i; simpl; [lia| |].
  - specialize (IH (incr i)). lia.
  - specialize (IH (incr i)). lia.
Qed.

(** *** The results and the documents of the array *)

Lemma cleanResults_kept (input : Decoder) :
  Z.of_nat (length input) ≤ maxInt →
  cleanResults NewDocumentFromReader Render input
  = cleanKept NewDocumentFromReader Render input.
Proof.
  intros Hlen. unfold cleanResults, cleanKept. by rewrite clean_dispatch_documents.
Qed.

Lemma flattenResults_kept (input : Decoder) :
  decodesUpToLast input = true →
  Z.of_nat (length input) ≤ maxInt →
  flattenResults NewDocumentFromReader Render input
  = flattenKept NewDocumentFromReader Render input.
Proof.
  intros Hdec Hlen. unfold flattenResults, flattenKept.
  by rewrite flatten_dispatch_documents.
Qed.

(** A kept result of the flatten stage is the result of the element at the
    position its index names. *)
Lemma flattenKept_position (input : Decoder) (res : FlattenStage.Result) :
  res ∈ flattenKept NewDocumentFromReader Render input →
  ∃ (p : nat) (entry : InputEntry),
    input !! p = Some (Decodable entry)
    ∧ res ∈ flattenWorker {| Index := Z.of_nat p; Data := entry |}
    ∧ FlattenStage.Error res = None
    ∧ FlattenStage.Index res = Z.of_nat p.
Proof.
  unfold flattenKept. intros [Hok (job & Hres & Hjob)%list_elem_of_bind]%list_elem_of_filter.
  apply documents_member in Hjob as (p & Hp & Hi).
  exists p, (Data job). rewrite <-Hi, <-job_eta. split; [done|]. split; [done|].
  split.
  - unfold FlattenStage.failed in Hok. by destruct (FlattenStage.Error res).
  - destruct (flatten_worker_one NewDocumentFromReader Render job) as (res' & Hw & Hk).
    rewrite Hw in Hres. apply list_elem_of_singleton in Hres as ->. by rewrite Hk, Hi.
Qed.

(** The lemmas of the results kept from a list of jobs. *)
Local Abbreviation lemmasOf jobs :=
  (lemmaEntries (filter (λ res, FlattenStage.failed res = false) (jobs ≫= flattenWorker))).

Lemma lemmasOf_cons (job : Job) (jobs : list Job) :
  lemmasOf (job :: jobs) = lemmasOf [job] ++ lemmasOf jobs.
Proof.
  change ([job] ≫= flattenWorker) with (flattenWorker job ++ []).
  rewrite app_nil_r. unfold lemmaEntries. by rewrite bind_cons, filter_app, bind_app.
Qed.

Lemma lemmasOf_data (job1 job2 : Job) :
  Data job1 = Data job2 → length (lemmasOf [job1]) = length (lemmasOf [job2]).
Proof.
  intros Hd.
  change ([job1] ≫= flattenWorker) with (flattenWorker job1 ++ []).
  change ([job2] ≫= flattenWorker) with (flattenWorker job2 ++ []).
  rewrite !app_nil_r. unfold FlattenStage.worker. rewrite Hd.
  destruct (NewDocumentFromReader _) as [doc|err]; [|reflexivity].
  destruct (Length _ =? 0); [reflexivity|].
  generalize (Each (Find (First (Find (document doc) div_article)) div_lemma)
                (FlattenStage.lemmaStep Render) []).
  intros hs. rewrite !filter_cons, !filter_nil. rewrite !decide_True by done.
  unfold lemmaEntries. csimpl. by rewrite !app_nil_r, !length_fmap.
Qed.

(** The flatten stage dispatches some of the elements the clean stage
    dispatches, so its results hold no more lemmas. *)
Lemma flatten_dispatch_fewer (input : Decoder) (i j : Z) :
  (length (lemmasOf (FlattenStage.dispatch i input))
   ≤ length (lemmasOf (CleanStage.dispatch j input)))%nat.
Proof.
  remember (length input) as n eqn:Hn. revert input i j Hn.
  induction n as [n IH] using lt_wf_ind. intros input i j ->.
  destruct input as [|[entry|err] input]; [done| |].
  - cbn [FlattenStage.dispatch CleanStage.dispatch].
    rewrite (lemmasOf_cons _ (FlattenStage.dispatch _ _)).
    rewrite (lemmasOf_cons _ (CleanStage.dispatch _ _)). rewrite !length_app.
    rewrite (lemmasOf_data {| Index := i; Data := entry |}
               {| Index := j; Data := entry |}) by done.
    apply Nat.add_le_mono_l. by apply (IH (length input)); [simpl; lia|].
  - cbn [FlattenStage.dispatch CleanStage.dispatch].
    destruct input as [|[entry|err'] input]; [done| |].
    + cbn [CleanStage.dispatch]. rewrite (lemmasOf_cons _ (CleanStage.dispatch _ _)).
      rewrite length_app.
      etrans; [by apply (IH (length input)) with (j := incr (incr j)); [simpl; lia|]|].
      lia.
    + cbn [CleanStage.dispatch].
      by apply (IH (length input)); [simpl; lia|].
Qed.

Lemma flattenResults_fewer (input : Decoder) :
  Z.of_nat (length input) ≤ maxInt →
  (length (lemmaEntries (flattenResults NewDocumentFromReader Render input))
   ≤ length (lemmaEntries (flattenKept NewDocumentFromReader Render input)))%nat.
Proof.
  intros Hlen. unfold flattenResults, flattenKept.
  rewrite <-clean_dispatch_documents by done. apply flatten_dispatch_fewer.
Qed.

End WithParser.

End PipelineFacts.

(** ** Claims about the two pipelines *)

Module PipelineClaims.
Import GoInt goquery Pipeline Expected WorkerPool Samples.
Import IntFacts PoolFacts DispatchFacts WorkerFacts AssemblyFacts PipelineFacts.

(** C1, as stated, fails: a document with two lemmas gives two entries,
    under the keys 1 and 2, that carry the same family number, so the
    family numbers do not increase strictly with the key. *)
Lemma C1_counterexample_family_repeats :
  ∃ out,
    FlattenStage.main sampleParser sampleRender 1 [Decodable (entryOf articleTwo)]
      [Dispatch; Take 0; Send 0; Collect] = Some out
    ∧ out !! 1 = Some {| FlattenStage.HTML := "bil"; FlattenStage.FamilyID := 1 |}
    ∧ out !! 2 = Some {| FlattenStage.HTML := "bila"; FlattenStage.FamilyID := 1 |}
    ∧ ¬ (∀ k1 k2 e1 e2, out !! k1 = Some e1 → out !! k2 = Some e2 → k1 < k2 →
                         FlattenStage.FamilyID e1 < FlattenStage.FamilyID e2).
Proof.
  eexists. split; [by vm_compute|].
  assert (∀ out : gmap Z FlattenStage.LemmaOutput,
            out !! 1 = Some {| FlattenStage.HTML := "bil"; FlattenStage.FamilyID := 1 |} →
            out !! 2 = Some {| FlattenStage.HTML := "bila"; FlattenStage.FamilyID := 1 |} →
            ¬ (∀ k1 k2 e1 e2, out !! k1 = Some e1 → out !! k2 = Some e2 → k1 < k2 →
                 FlattenStage.FamilyID e1 < FlattenStage.FamilyID e2)) as Hno.
  { intros out H1 H2 H. specialize (H 1 2 _ _ H1 H2). simpl in H. lia. }
  split; [by vm_compute|]. split; [by vm_compute|]. apply Hno; by vm_compute.
Qed.

(** C1 (amended): for every input array and every schedule of the worker
    pool under which a pipeline runs to its end, the keys of the output are
    1, 2, ..., n without gap, and in the flatten stage the family number
    never decreases along increasing keys.  In the clean stage the values
    are, in the order of the input array, the kept HTML of the documents
    that did not fail, a document being an element that decodes, taken with
    its position in the array.  In the flatten stage, on an array in which
    no element other than the last fails to decode, the values are, in the
    order of the input array, the lemmas of the documents that did not
    fail, each with the position of its document (counted from 0) plus one
    as family number.  The array is taken to have fewer than [maxInt]
    elements and its documents fewer than [maxInt] lemmas. *)
Theorem C1_output_in_input_order
    (NewDocumentFromReader : string → result Node) (Render : Node → result string)
    (NumCPU : Z) (input : Decoder) (schedule : list Action) :
  Z.of_nat (length input) < maxInt →
  (∀ out : gmap Z string,
     let expected :=
       CleanStage.CleanedHTML <$> cleanKept NewDocumentFromReader Render input in
     CleanStage.main NewDocumentFromReader Render NumCPU input schedule = Some out →
     (∀ k, out !! k = numbered expected k)
     ∧ (∀ k, is_Some (out !! k) ↔ 1 ≤ k ≤ Z.of_nat (length expected)))
  ∧ (∀ out : gmap Z FlattenStage.LemmaOutput,
       let expected :=
         lemmaEntries (flattenKept NewDocumentFromReader Render input) in
       Z.of_nat (length expected) < maxInt →
       FlattenStage.main NewDocumentFromReader Render NumCPU input schedule = Some out →
       (∃ n : nat, ∀ k, is_Some (out !! k) ↔ 1 ≤ k ≤ Z.of_nat n)
       ∧ (∀ k1 k2 e1 e2, out !! k1 = Some e1 → out !! k2 = Some e2 → k1 < k2 →
            FlattenStage.FamilyID e1 ≤ FlattenStage.FamilyID e2)
       ∧ (decodesUpToLast input = true →
          (∀ k, out !! k = numbered expected k)
          ∧ (∀ k e, out !! k = Some e →
               ∃ (p : nat) (entry : InputEntry) (res : FlattenStage.Result),
                 input !! p = Some (Decodable entry)
                 ∧ res ∈ FlattenStage.worker NewDocumentFromReader Render
                           {| Index := Z.of_nat p; Data := entry |}
                 ∧ FlattenStage.Error res = None
                 ∧ FlattenStage.HTML e ∈ FlattenStage.LemmaHTMLs res
                 ∧ FlattenStage.FamilyID e = Z.of_nat p + 1))).
Proof.
  intros Hin. split.
  - intros out expected Hmain.
    assert (Hnum : ∀ k, out !! k = numbered expected k).
    { intros k. subst expected. rewrite <-cleanResults_kept by lia.
      by apply (clean_output_in_input_order _ _ NumCPU input schedule). }
    split; [done|]. intros k. rewrite Hnum. apply numbered_is_Some.
  - intros out expected Hout Hmain.
    pose proof (flattenResults_fewer NewDocumentFromReader Render input
                  (Z.lt_le_incl _ _ Hin)) as Hfewer.
    fold expected in Hfewer.
    assert (Hnum : ∀ k, out !! k
                        = numbered (lemmaEntries
                                      (flattenResults NewDocumentFromReader Render input)) k).
    { intros k.
      rewrite (flatten_main_assembles _ _ _ _ _ _ (Z.lt_le_incl _ _ Hin) Hmain).
      apply flatten_assemble_numbered; [apply flattenResults_bounds; lia|lia]. }
    split; [|split].
    + eexists. intros k. rewrite Hnum. apply numbered_is_Some.
    + intros k1 k2 e1 e2. rewrite !Hnum. unfold numbered.
      repeat case_decide; try done. intros H1 H2 Hlt.
      apply (sorted_lookup
               (λ a b, FlattenStage.FamilyID a ≤ FlattenStage.FamilyID b)
               _ (Z.to_nat (k1 - 1)) (Z.to_nat (k2 - 1)) _ _
               (lemmaEntries_sorted _
                  (flattenResults_sorted NewDocumentFromReader Render input
                     (Z.lt_le_incl _ _ Hin))) H1 H2).
      lia.
    + intros Hdec. rewrite flattenResults_kept in Hnum by (done || lia).
      fold expected in Hnum. split; [done|].
      intros k e. rewrite Hnum. unfold numbered. case_decide; [|done]. intros He.
      apply list_elem_of_lookup_2, lemmaEntries_family in He
        as (res & Hres & Hfam & Hhtml).
      apply flattenKept_position in Hres as (p & entry & Hp & Hw & Herr & Hi).
      exists p, entry, res. rewrite Hfam, Hi. done.
Qed.

Lemma C1_output_in_input_order_witness :
  (∃ out,
     CleanStage.main sampleParser sampleRender 2 threeEntries outOfOrder = Some out
     ∧ ∀ k, out !! k
            = numbered ["<div class=lemma>bil</div><div class=lemma>bila</div>"; "";
                        "<div class=lemma>cykel</div>"] k)
  ∧ ∃ out,
      FlattenStage.main sampleParser sampleRender 2 threeEntries outOfOrder = Some out
      ∧ (∀ k, out !! k
              = numbered [{| FlattenStage.HTML := "bil"; FlattenStage.FamilyID := 1 |};
                          {| FlattenStage.HTML := "bila"; FlattenStage.FamilyID := 1 |};
                          {| FlattenStage.HTML := "cykel"; FlattenStage.FamilyID := 3 |}] k)
      ∧ (∀ k1 k2 e1 e2, out !! k1 = Some e1 → out !! k2 = Some e2 → k1 < k2 →
           FlattenStage.FamilyID e1 ≤ FlattenStage.FamilyID e2).
Proof.
  destruct (C1_output_in_input_order sampleParser sampleRender 2
              threeEntries outOfOrder ltac:(by vm_compute)) as [Hclean Hflatten].
  split.
  - eexists. split; [by vm_compute|].
    by destruct (Hclean _ ltac:(by vm_compute)) as [H1 _].
  - eexists. split; [by vm_compute|].
    destruct (Hflatten _ ltac:(by vm_compute) ltac:(by vm_compute))
      as (_ & H2 & H3).
    split; [|exact H2].
    apply H3. reflexivity.
Defined.

(** C3, evaluated on the array [[5, {"html": A}, {"html": B}]]: the clean
    stage skips the number and dispatches A with index 1 and B with index 2;
    the flatten stage, which reads one more value after the failed decode,
    never dispatches A and dispatches B with index 1. *)
Theorem C3_flatten_dispatch_loses_alignment :
  badFirst !! 1%nat = Some (Decodable (entryOf articleTwo))
  ∧ badFirst !! 2%nat = Some (Decodable (entryOf articleOne))
  ∧ CleanStage.dispatch 0 badFirst
    = [{| Index := 1; Data := entryOf articleTwo |};
       {| Index := 2; Data := entryOf articleOne |}]
  ∧ FlattenStage.dispatch 0 badFirst = [{| Index := 1; Data := entryOf articleOne |}].
Proof. repeat split. Qed.

(** C7: in both stages, a job whose document parses and has no
    [div.article] makes the worker send one result with the job's index, no
    error and an empty payload (the empty string in the clean stage, no
    lemma in the flatten stage); the collector keeps such a result. *)
Theorem C7_no_article_is_success
    (NewDocumentFromReader : string → result Node) (Render : Node → result string)
    (job : Job) (doc : Node) :
  NewDocumentFromReader (HTML (Data job)) = Ok doc →
  Length (Find (document doc) div_article) = 0 →
  CleanStage.worker NewDocumentFromReader Render job
    = [{| CleanStage.Index := Index job; CleanStage.CleanedHTML := "";
          CleanStage.Error := None |}]
  ∧ FlattenStage.worker NewDocumentFromReader Render job
    = [{| FlattenStage.Index := Index job; FlattenStage.LemmaHTMLs := [];
          FlattenStage.Error := None |}]
  ∧ Forall (λ res, CleanStage.failed res = false)
      (CleanStage.worker NewDocumentFromReader Render job)
  ∧ Forall (λ res, FlattenStage.failed res = false)
      (FlattenStage.worker NewDocumentFromReader Render job).
Proof.
  intros Hdoc Hnone. unfold CleanStage.worker, FlattenStage.worker.
  rewrite Hdoc. cbv beta iota zeta. rewrite Hnone. simpl. by repeat constructor.
Qed.

Lemma C7_no_article_witness :
  let job := {| Index := 7; Data := entryOf noArticle |} in
  CleanStage.worker sampleParser sampleRender job
    = [{| CleanStage.Index := 7; CleanStage.CleanedHTML := "";
          CleanStage.Error := None |}]
  ∧ FlattenStage.worker sampleParser sampleRender job
    = [{| FlattenStage.Index := 7; FlattenStage.LemmaHTMLs := [];
          FlattenStage.Error := None |}].
Proof.
  destruct (C7_no_article_is_success sampleParser sampleRender
              {| Index := 7; Data := entryOf noArticle |} noArticle
              ltac:(by vm_compute) ltac:(by vm_compute)) as (H1 & H2 & _).
  split; [exact H1|exact H2].
Defined.

(** C8: in both stages the worker sends exactly one result for a job, with
    the job's index, and that result either carries an error or does not;
    and over a complete run of the pool the workers send exactly as many
    results as jobs were dispatched. *)
Theorem C8_one_result_per_job
    (NewDocumentFromReader : string → result Node) (Render : Node → result string) :
  (∀ job, ∃ res, CleanStage.worker NewDocumentFromReader Render job = [res]
                 ∧ CleanStage.Index res = Index job)
  ∧ (∀ job, ∃ res, FlattenStage.worker NewDocumentFromReader Render job = [res]
                   ∧ FlattenStage.Index res = Index job)
  ∧ (∀ cap numWorkers all schedule st,
       run (CleanStage.worker NewDocumentFromReader Render) CleanStage.failed cap
         schedule (initial numWorkers all) = Some st →
       finished st = true → sendCount schedule = length all)
  ∧ (∀ cap numWorkers all schedule st,
       run (FlattenStage.worker NewDocumentFromReader Render) FlattenStage.failed cap
         schedule (initial numWorkers all) = Some st →
       finished st = true → sendCount schedule = length all).
Proof.
  split; [apply clean_worker_one|]. split; [apply flatten_worker_one|]. split.
  - intros cap numWorkers all schedule st Hrun Hfin.
    rewrite (run_send_count _ _ _ _ _ _ _ Hrun Hfin).
    rewrite <-(length_fmap CleanStage.Index), clean_work_keys. apply length_fmap.
  - intros cap numWorkers all schedule st Hrun Hfin.
    rewrite (run_send_count _ _ _ _ _ _ _ Hrun Hfin).
    rewrite <-(length_fmap FlattenStage.Index), flatten_work_keys. apply length_fmap.
Qed.

Lemma C8_one_result_witness :
  sendCount outOfOrder = 3%nat
  ∧ length (FlattenStage.dispatch 0 threeEntries) = 3%nat.
Proof.
  split; [|reflexivity].
  destruct (C8_one_result_per_job sampleParser sampleRender) as (_ & _ & _ & H).
  destruct (run (FlattenStage.worker sampleParser sampleRender) FlattenStage.failed
              100 outOfOrder (initial 2 (FlattenStage.dispatch 0 threeEntries)))
    as [st|] eqn:Hrun; [|by vm_compute in Hrun].
  apply (H 100%nat 2%nat (FlattenStage.dispatch 0 threeEntries) outOfOrder st Hrun).
  vm_compute in Hrun. injection Hrun as <-. reflexivity.
Defined.

End PipelineClaims.

(** ** Saved entries: what ends up in a bucket *)

Module BucketFacts.
Import GoStrings goquery CategoryStage Grammar Reading StringFacts CategoryFacts.

Lemma LastIndex_present (s : string) (c : ascii) :
  occurs c s = true → 0 ≤ LastIndex s c.
Proof.
  induction s as [|a s IH]; simpl; [done|].
  destruct (occurs c s).
  - intros _. specialize (IH eq_refl).
    destruct (Z.leb_spec 0 (LastIndex s c)); lia.
  - rewrite orb_false_r. intros ->.
    destruct (Z.leb_spec 0 (LastIndex s c)); lia.
Qed.

(** The last separator splits the string, and nothing behind it is a
    separator. *)
Lemma LastIndex_split (s : string) (c : ascii) :
  0 ≤ LastIndex s c →
  s = sliceTo s (LastIndex s c) +:+ String c (sliceFrom s (LastIndex s c + 1))
  ∧ occurs c (sliceFrom s (LastIndex s c + 1)) = false.
Proof.
  unfold sliceTo, sliceFrom. induction s as [|a s IH]; simpl; [lia|].
  destruct (Z.leb_spec 0 (LastIndex s c)) as [Hi|Hi].
  - intros _. destruct (IH Hi) as [Hs Ho].
    replace (Z.to_nat (LastIndex s c + 1 + 1)) with (S (Z.to_nat (LastIndex s c + 1))) by lia.
    replace (Z.to_nat (LastIndex s c + 1)) with (S (Z.to_nat (LastIndex s c))) at 1 by lia.
    simpl. rewrite append_cons. split; [by f_equal|done].
  - destruct (Ascii.eqb_spec a c) as [->|]; [|lia]. intros _. simpl.
    split; [done|]. destruct (occurs c s) eqn:E; [|done].
    apply LastIndex_present in E. lia.
Qed.

Lemma untag_tagged (label v : string) : untag label (v +:+ "-" +:+ label) = Some v.
Proof.
  assert (Hn : (String.length (v +:+ "-" +:+ label) - String.length label - 1)%nat
               = String.length v)
    by (rewrite !length_append; simpl; lia).
  unfold untag. cbv zeta. rewrite Hn, takeBytes_app. by rewrite String.eqb_refl.
Qed.

Lemma untag_Some (label tagged v : string) :
  untag label tagged = Some v → tagged = v +:+ "-" +:+ label.
Proof.
  unfold untag. destruct (String.eqb_spec tagged (takeBytes
    (String.length tagged - String.length label - 1) tagged +:+ "-" +:+ label))
    as [H|]; [|done].
  by intros [= <-].
Qed.

(** One round of the bucketing loop, seen from the bucket of [label]. *)
Lemma bucket_lookup (forms : gmap string (list string)) (label tagged : string)
    (l : list string) :
  occurs "-" label = false → forms !! label = Some l →
  bucket forms tagged !! label = Some (l ++ option_list (untag label tagged)).
Proof.
  intros Hd Hl. unfold bucket.
  destruct (Z.ltb_spec (LastIndex tagged "-") 0) as [Hneg|Hpos].
  - destruct (untag label tagged) as [v|] eqn:Hu; [|by rewrite app_nil_r].
    apply untag_Some in Hu. subst tagged.
    change ("-" +:+ label) with (String "-" label) in Hneg.
    rewrite (LastIndex_tagged _ _ _ Hd) in Hneg. lia.
  - destruct (LastIndex_split tagged "-" Hpos) as [Hs _].
    remember (sliceTo tagged (LastIndex tagged "-")) as fv eqn:Hfv.
    remember (sliceFrom tagged (LastIndex tagged "-" + 1)) as section eqn:Hsec.
    destruct (decide (section = label)) as [->|Hne].
    + rewrite Hl, lookup_insert_eq. rewrite Hs.
      change (String "-" label) with ("-" +:+ label). by rewrite untag_tagged.
    + assert (Hnone : untag label tagged = None).
      { destruct (untag label tagged) as [v|] eqn:Hu; [|done].
        apply untag_Some in Hu. destruct Hne. rewrite Hsec, Hu.
        change ("-" +:+ label) with (String "-" label).
        rewrite (LastIndex_tagged _ _ _ Hd). unfold sliceFrom.
        replace (Z.to_nat (Z.of_nat (String.length v) + 1)) with (S (String.length v)) by lia.
        apply dropBytes_tagged. }
      rewrite Hnone, app_nil_r.
      destruct (forms !! section); [by rewrite lookup_insert_ne|done].
Qed.

Lemma foldl_bucket_lookup (raw : list string) (forms : gmap string (list string))
    (label : string) (l : list string) :
  occurs "-" label = false → forms !! label = Some l →
  foldl bucket forms raw !! label = Some (l ++ omap (untag label) raw).
Proof.
  intros Hd. revert forms l. induction raw as [|tagged raw IH]; intros forms l Hl.
  - simpl. by rewrite app_nil_r.
  - simpl. rewrite (IH _ _ (bucket_lookup _ _ tagged _ Hd Hl)).
    rewrite <-app_assoc. by destruct (untag label tagged).
Qed.

(** X8: in the entry that [saveVerbsJSON] builds for one verb, the bucket of
    each of the four labels holds, in order, the values of exactly those
    tagged strings that read "value-label"; tagged strings without "-" or
    with any other text behind their last "-" leave every bucket as it is.
    [saveAdjectivesJSON] does the same with its three labels. *)
Theorem X8_buckets_hold_their_label (raw : list string) (label : string) :
  (label ∈ verbLabels → vForms (verbEntry raw) !! label = Some (omap (untag label) raw))
  ∧ (label ∈ adjektivLabels →
     Forms (adjectiveEntry raw) !! label = Some (omap (untag label) raw)).
Proof.
  split; intros Hl.
  - unfold verbEntry. simpl vForms.
    rewrite (foldl_bucket_lookup raw _ label []).
    + done.
    + apply label_no_dash, elem_of_app. by left.
    + repeat (apply elem_of_cons in Hl as [->|Hl]); try done.
      by apply elem_of_nil in Hl.
  - unfold adjectiveEntry. simpl Forms.
    rewrite (foldl_bucket_lookup raw _ label []).
    + done.
    + apply label_no_dash, elem_of_app. by right.
    + repeat (apply elem_of_cons in Hl as [->|Hl]); try done.
      by apply elem_of_nil in Hl.
Qed.

Lemma X8_buckets_witness :
  vForms (verbEntry ["springer-presens aktiv-Finita former"; "malformed";
                     "sprang-Preteritum"; "springa-Infinita former";
                     "springs-Finita former"]) !! "Finita former"
  = Some ["springer-presens aktiv"; "springs"].
Proof.
  refine (proj1 (X8_buckets_hold_their_label _ "Finita former") _).
  vm_compute. repeat constructor.
Defined.

End BucketFacts.

(** ** The walk over a whole table *)

Module WalkFacts.
Import GoStrings goquery CategoryStage Grammar Reading StringFacts CategoryFacts.

Section Callback.

Variable f : Selection → rowState → rowState.
Variable yields : Located → bool.

(** A callback only appends to the slice it has captured, and what it
    appends and the context it leaves do not depend on the slice. *)
Hypothesis f_appends :
  ∀ s acc ctx, f s (acc, ctx) = (acc ++ (f s ([], ctx)).1, (f s ([], ctx)).2).
Hypothesis f_count :
  ∀ r ctx, length (f [r] ([], ctx)).1 = if yields r then 1%nat else 0%nat.

Lemma Each_appends (rows : Selection) (acc : list string) (ctx : string) :
  Each rows f (acc, ctx)
  = (acc ++ (Each rows f ([], ctx)).1, (Each rows f ([], ctx)).2).
Proof.
  unfold Each. revert acc ctx. induction rows as [|r rows IH]; intros acc ctx.
  - simpl. by rewrite app_nil_r.
  - cbn [foldl]. rewrite (f_appends [r] acc ctx).
    destruct (f [r] ([], ctx)) as [o ctx']. cbn [fst snd].
    rewrite IH, (IH o). cbn [fst snd]. by rewrite app_assoc.
Qed.

Lemma Each_count (rows : list Located) (ctx : string) :
  length (Each rows f ([], ctx)).1 = length (filter (λ r, yields r = true) rows).
Proof.
  revert ctx. induction rows as [|r rows IH]; intros ctx; [done|].
  rewrite filter_cons. pose proof (f_count r ctx) as Hc.
  change (Each (r :: rows) f ([], ctx)) with (Each rows f (f [r] ([], ctx))).
  destruct (f [r] ([], ctx)) as [o ctx']. rewrite Each_appends. cbn [fst] in *.
  rewrite length_app, IH, Hc.
  destruct (yields r); [rewrite decide_True by done|rewrite decide_False by done];
    simpl; lia.
Qed.

(** Under the empty context a callback appends only strings that the
    bucketing loop drops. *)
Hypothesis f_headless :
  ∀ r, isHeader [r] = false →
       (f [r] ([], "")).2 = ""
       ∧ ∀ forms : gmap string (list string),
           forms !! "" = None → foldl bucket forms (f [r] ([], "")).1 = forms.

Lemma Each_headless (pre : Selection) :
  Forall (λ r, isHeader [r] = false) pre →
  (Each pre f ([], "")).2 = ""
  ∧ ∀ forms : gmap string (list string),
      forms !! "" = None → foldl bucket forms (Each pre f ([], "")).1 = forms.
Proof.
  induction 1 as [|r pre Hr Hpre IH]; [done|].
  change (Each (r :: pre) f ([], "")) with (Each pre f (f [r] ([], ""))).
  destruct (f_headless r Hr) as [Hctx' Hdrop].
  destruct (f [r] ([], "")) as [o ctx']. cbn [fst snd] in *. subst ctx'.
  rewrite Each_appends. cbn [fst snd].
  destruct IH as [Hctx IH]. split; [done|]. intros forms Hf.
  by rewrite foldl_app, Hdrop, IH.
Qed.

Lemma Each_after_headless (pre rest : Selection) (forms : gmap string (list string)) :
  Forall (λ r, isHeader [r] = false) pre → forms !! "" = None →
  foldl bucket forms (Each (pre ++ rest) f ([], "")).1
  = foldl bucket forms (Each rest f ([], "")).1.
Proof.
  intros Hpre Hf. destruct (Each_headless pre Hpre) as [Hctx Hdrop].
  assert (Happ : Each (pre ++ rest) f ([], "") = Each rest f (Each pre f ([], "")))
    by apply foldl_app.
  rewrite Happ. destruct (Each pre f ([], "")) as [o ctx']. cbn [fst snd] in *.
  subst ctx'. rewrite Each_appends. cbn [fst]. by rewrite foldl_app, Hdrop.
Qed.

End Callback.

(** *** The three callbacks meet the conditions *)

Lemma row_cases (s : Selection) :
  isHeader s = true ∨ isHeader s = false.
Proof. destruct (isHeader s); auto. Qed.

Lemma substantivRow_appends (s : Selection) (acc : list string) (ctx : string) :
  substantivRow s (acc, ctx)
  = (acc ++ (substantivRow s ([], ctx)).1, (substantivRow s ([], ctx)).2).
Proof.
  unfold substantivRow. destruct (Length (Find s th_ordformth) =? 1).
  { simpl. by rewrite app_nil_r. }
  destruct (Length (Find s sel_td) =? 2); simpl; [done|]. by rewrite app_nil_r.
Qed.

Lemma verbRow_appends (s : Selection) (acc : list string) (ctx : string) :
  verbRow s (acc, ctx) = (acc ++ (verbRow s ([], ctx)).1, (verbRow s ([], ctx)).2).
Proof.
  unfold verbRow. destruct (Length (Find s th_ordformth) =? 1).
  { simpl. by rewrite app_nil_r. }
  destruct (Length (Find s sel_td) =? 0); simpl; [|done]. by rewrite app_nil_r.
Qed.

Lemma adjektivRow_appends (s : Selection) (acc : list string) (ctx : string) :
  adjektivRow s (acc, ctx)
  = (acc ++ (adjektivRow s ([], ctx)).1, (adjektivRow s ([], ctx)).2).
Proof.
  unfold adjektivRow. destruct (Length (Find s th_ordformth) =? 1).
  { simpl. by rewrite app_nil_r. }
  destruct (Length (Find s sel_td) =? 1); simpl; [done|]. by rewrite app_nil_r.
Qed.

Lemma substantivRow_count (r : Located) (ctx : string) :
  length (substantivRow [r] ([], ctx)).1 = if substantivYields r then 1%nat else 0%nat.
Proof.
  unfold substantivYields. destruct (row_cases [r]) as [Hh|Hh]; rewrite Hh.
  - by rewrite (header_row substantivRow) by (repeat constructor || done).
  - cbn [negb andb]. destruct (Z.eqb_spec (Length (cells [r])) 2) as [Hc|Hc].
    + by rewrite substantivRow_value.
    + by rewrite substantivRow_skip.
Qed.

Lemma verbRow_count (r : Located) (ctx : string) :
  length (verbRow [r] ([], ctx)).1 = if verbYields r then 1%nat else 0%nat.
Proof.
  unfold verbYields. destruct (row_cases [r]) as [Hh|Hh]; rewrite Hh.
  - by rewrite (header_row verbRow) by (repeat constructor || done).
  - cbn [negb andb]. destruct (Z.eqb_spec (Length (cells [r])) 0) as [Hc|Hc].
    + by rewrite verbRow_skip.
    + by rewrite verbRow_value.
Qed.

Lemma adjektivRow_count (r : Located) (ctx : string) :
  length (adjektivRow [r] ([], ctx)).1 = if adjektivYields r then 1%nat else 0%nat.
Proof.
  unfold adjektivYields. destruct (row_cases [r]) as [Hh|Hh]; rewrite Hh.
  - by rewrite (header_row adjektivRow) by (repeat constructor || done).
  - cbn [negb andb]. destruct (Z.eqb_spec (Length (cells [r])) 1) as [Hc|Hc].
    + by rewrite adjektivRow_value.
    + by rewrite adjektivRow_skip.
Qed.

Lemma bucket_empty_label (forms : gmap string (list string)) (v : string) :
  forms !! "" = None → bucket forms (v +:+ "-" +:+ "") = forms.
Proof. intros Hf. rewrite bucket_tagged by done. by rewrite Hf. Qed.

Lemma verbRow_headless (r : Located) :
  isHeader [r] = false →
  (verbRow [r] ([], "")).2 = ""
  ∧ ∀ forms : gmap string (list string),
      forms !! "" = None → foldl bucket forms (verbRow [r] ([], "")).1 = forms.
Proof.
  intros Hh. destruct (Z.eqb_spec (Length (cells [r])) 0) as [Hc|Hc].
  - by rewrite verbRow_skip.
  - rewrite verbRow_value by done. split; [done|]. intros forms Hf. simpl.
    by apply bucket_empty_label.
Qed.

Lemma adjektivRow_headless (r : Located) :
  isHeader [r] = false →
  (adjektivRow [r] ([], "")).2 = ""
  ∧ ∀ forms : gmap string (list string),
      forms !! "" = None → foldl bucket forms (adjektivRow [r] ([], "")).1 = forms.
Proof.
  intros Hh. destruct (Z.eqb_spec (Length (cells [r])) 1) as [Hc|Hc].
  - rewrite adjektivRow_value by done. split; [done|]. intros forms Hf. simpl.
    by apply bucket_empty_label.
  - by rewrite adjektivRow_skip.
Qed.

(** X9: the rows that stand in front of the first header row of the
    document, among all rows [.tabell tr] selects, whichever table they are
    in, leave no trace in the saved entry: they are tagged with the empty
    context, which is no label.  The verb and the adjective entry of the
    document are those built from the remaining rows alone.  (A value row
    that opens a later table is not such a row: it is walked with the label
    the table before it left behind.) *)
Theorem X9_rows_before_first_header_not_saved (doc : Node) (pre rest : Selection) :
  Find (document doc) tabell_tr = pre ++ rest →
  Forall (λ r, isHeader [r] = false) pre →
  verbEntry (parseVerbForms doc) = verbEntry (Each rest verbRow ([], "")).1
  ∧ adjectiveEntry (parseAdjektiv doc)
    = adjectiveEntry (Each rest adjektivRow ([], "")).1.
Proof.
  intros Hrows Hpre. unfold parseVerbForms, parseAdjektiv, verbEntry, adjectiveEntry.
  rewrite Hrows. cbn [vClass vForms Class Forms]. split; f_equal.
  - apply (Each_after_headless verbRow verbRow_appends verbRow_headless); done.
  - apply (Each_after_headless adjektivRow adjektivRow_appends adjektivRow_headless);
      done.
Qed.

Lemma X9_rows_before_first_header_witness :
  parseVerbForms verbHeadless
  = ["springe-konjunktiv-"; "springer-presens aktiv-Finita former"]
  ∧ verbEntry (parseVerbForms verbHeadless)
    = verbEntry ["springer-presens aktiv-Finita former"].
Proof.
  split; [reflexivity|].
  refine (proj1 (X9_rows_before_first_header_not_saved verbHeadless
                   [Samples.rowAt verbHeadless 0]
                   [Samples.rowAt verbHeadless 1; Samples.rowAt verbHeadless 2]
                   eq_refl _)).
  by repeat constructor.
Defined.

(** X10: each of the three table walks yields exactly one record per row
    that is not a header row and has the cell count the walk accepts (two
    cells for nouns, one or more for verbs, one for adjectives), and none
    for any other row. *)
Theorem X10_one_record_per_accepted_row (doc : Node) :
  let rows : list Located := Find (document doc) tabell_tr in
  length (parseSubstantiv doc) = length (filter (λ r, substantivYields r = true) rows)
  ∧ length (parseVerbForms doc) = length (filter (λ r, verbYields r = true) rows)
  ∧ length (parseAdjektiv doc) = length (filter (λ r, adjektivYields r = true) rows).
Proof.
  intros rows. unfold parseSubstantiv, parseVerbForms, parseAdjektiv. fold rows.
  split; [|split].
  - apply (Each_count substantivRow substantivYields substantivRow_appends
             substantivRow_count).
  - apply (Each_count verbRow verbYields verbRow_appends verbRow_count).
  - apply (Each_count adjektivRow adjektivYields adjektivRow_appends adjektivRow_count).
Qed.

End WalkFacts.

(** ** The filter and the classification of the category stage *)

Module FilterFacts.
Import GoStrings goquery CategoryStage Grammar Reading Samples.

Section WithParser.

Variable NewDocumentFromReader : string → result Node.

Local Abbreviation filterStep := (filterStep NewDocumentFromReader).
Local Abbreviation FilterLemmasByOrdklass := (FilterLemmasByOrdklass NewDocumentFromReader).
Local Abbreviation classify := (classify NewDocumentFromReader).
Local Abbreviation classifyAll := (classifyAll NewDocumentFromReader).
Local Abbreviation main := (main NewDocumentFromReader).

Lemma allowedOrdklass_spec (t : string) :
  default false (allowedOrdklass !! t) = true ↔ t ∈ recognizedClasses.
Proof.
  unfold allowedOrdklass, recognizedClasses. split.
  - rewrite !lookup_insert, lookup_singleton.
    repeat case_decide; subst; by repeat constructor.
  - intros H. repeat (apply elem_of_cons in H as [->|H]); try done.
    by apply elem_of_nil in H.
Qed.

Lemma filterStep_appends (inputMap : gmap string LemmaInput)
    (acc : list string) (key : string) :
  filterStep inputMap acc key = acc ++ filterStep inputMap [] key.
Proof.
  unfold CategoryStage.filterStep. destruct (inputMap !! key) as [entry|];
    [|by rewrite app_nil_r].
  destruct (NewDocumentFromReader _); [|by rewrite app_nil_r].
  destruct (default false _); [done|by rewrite app_nil_r].
Qed.

Lemma Filter_bind (inputMap : gmap string LemmaInput) (rangeOrder : list string) :
  FilterLemmasByOrdklass inputMap rangeOrder
  = rangeOrder ≫= filterStep inputMap [].
Proof.
  unfold CategoryStage.FilterLemmasByOrdklass.
  assert (H : ∀ acc, foldl (filterStep inputMap) acc rangeOrder
                     = acc ++ (rangeOrder ≫= filterStep inputMap [])); [|apply H].
  induction rangeOrder as [|key rest IH]; intros acc.
  - by rewrite app_nil_r.
  - cbn [foldl]. rewrite IH, bind_cons, filterStep_appends. by rewrite app_assoc.
Qed.

Lemma filterStep_member (inputMap : gmap string LemmaInput) (key html : string) :
  html ∈ filterStep inputMap [] key
  ↔ ∃ entry doc,
      inputMap !! key = Some entry ∧ HTML entry = html
      ∧ NewDocumentFromReader html = Ok doc
      ∧ TrimSpace (Text (First (Find (document doc) dot_ordklass)))
        ∈ recognizedClasses.
Proof.
  unfold CategoryStage.filterStep. split.
  - destruct (inputMap !! key) as [entry|]; [|by intros ?%elem_of_nil].
    destruct (NewDocumentFromReader (HTML entry)) as [doc|] eqn:Hdoc;
      [|by intros ?%elem_of_nil].
    destruct (default false _) eqn:Hallowed; [|by intros ?%elem_of_nil].
    intros ->%list_elem_of_singleton. exists entry, doc.
    by rewrite <-allowedOrdklass_spec.
  - intros (entry & doc & -> & <- & -> & Hc). apply allowedOrdklass_spec in Hc.
    rewrite Hc. by apply list_elem_of_singleton.
Qed.

(** The filter returns HTML that parses. *)
Lemma Filter_parses (inputMap : gmap string LemmaInput) (rangeOrder : list string) :
  Forall (λ html, ∃ doc, NewDocumentFromReader html = Ok doc)
    (FilterLemmasByOrdklass inputMap rangeOrder).
Proof.
  apply Forall_forall. intros html. rewrite Filter_bind.
  intros (key & (entry & doc & _ & _ & Hdoc & _)%filterStep_member & _)%list_elem_of_bind.
  eauto.
Qed.

(** what one HTML adds to the three slices of [main] *)
Lemma classify_appends (acc : Collected) (html : string) :
  match classify acc html with
  | Err e => NewDocumentFromReader html = Err e
  | Ok acc' =>
      ∃ empty',
        classify {| nouns := []; verbs := []; adjectives := [] |} html = Ok empty'
        ∧ nouns acc' = nouns acc ++ nouns empty'
        ∧ verbs acc' = verbs acc ++ verbs empty'
        ∧ adjectives acc' = adjectives acc ++ adjectives empty'
  end.
Proof.
  unfold CategoryStage.classify. destruct (NewDocumentFromReader html) as [doc|e]; [|done].
  repeat (destruct (String.eqb _ _); [eexists; split; [done|];
    simpl; by rewrite ?app_nil_r|]).
  eexists. split; [done|]. simpl. by rewrite !app_nil_r.
Qed.

Lemma classifyAll_Ok (htmls : list string) (acc : Collected) :
  Forall (λ html, ∃ doc, NewDocumentFromReader html = Ok doc) htmls →
  ∃ acc',
    classifyAll acc htmls = Ok acc'
    ∧ verbs acc'
      = verbs acc
        ++ (htmls ≫= λ html,
              from_option verbs []
                (match classify {| nouns := []; verbs := []; adjectives := [] |} html with
                 | Ok c => Some c | Err _ => None end))
    ∧ adjectives acc'
      = adjectives acc
        ++ (htmls ≫= λ html,
              from_option adjectives []
                (match classify {| nouns := []; verbs := []; adjectives := [] |} html with
                 | Ok c => Some c | Err _ => None end)).
Proof.
  intros H. revert acc. induction H as [|html htmls [doc Hdoc] _ IH]; intros acc.
  - exists acc. by rewrite !app_nil_r.
  - cbn [CategoryStage.classifyAll]. pose proof (classify_appends acc html) as Hc.
    destruct (classify acc html) as [acc1|e]; [|congruence].
    destruct Hc as (empty' & He & _ & Hv & Ha).
    destruct (IH acc1) as (acc' & -> & Hv' & Ha'). exists acc'. split; [done|].
    rewrite Hv', Ha', Hv, Ha, !bind_cons, He. simpl. by rewrite <-!app_assoc.
Qed.

(** X12: the category stage never stops with the fatal error of its
    classification loop: every HTML that [FilterLemmasByOrdklass] returns
    has been parsed there, so parsing it again in [main] succeeds, and the
    two files are written whatever the input map and the order of its
    traversal. *)
Theorem X12_category_main_never_fatal
    (inputMap : gmap string LemmaInput) (rangeOrder : list string) :
  ∃ adjs vbs,
    main inputMap rangeOrder
    = Ok [("adjectives.json", AdjectiveFile adjs); ("verbs.json", VerbFile vbs)].
Proof.
  unfold CategoryStage.main.
  destruct (classifyAll_Ok (FilterLemmasByOrdklass inputMap rangeOrder)
              {| nouns := []; verbs := []; adjectives := [] |}
              (Filter_parses inputMap rangeOrder)) as (acc & -> & _).
  by eexists _, _.
Qed.

(** X11: [FilterLemmasByOrdklass] returns the HTML of exactly those entries
    of the input map that parse and whose first [.ordklass] element reads,
    after trimming, "substantiv", "verb", "adjektiv" or "adverb"; which
    entries are returned does not depend on the order in which the map is
    traversed. *)
Theorem X11_filter_keeps_allowed_classes
    (inputMap : gmap string LemmaInput) (rangeOrder : list string) (html : string) :
  isRangeOrder inputMap rangeOrder →
  html ∈ FilterLemmasByOrdklass inputMap rangeOrder
  ↔ ∃ key entry doc,
      inputMap !! key = Some entry ∧ HTML entry = html
      ∧ NewDocumentFromReader html = Ok doc
      ∧ TrimSpace (Text (First (Find (document doc) dot_ordklass)))
        ∈ recognizedClasses.
Proof.
  intros Horder. rewrite Filter_bind, list_elem_of_bind. split.
  - intros (key & (entry & doc & H)%filterStep_member & _). by exists key, entry, doc.
  - intros (key & entry & doc & Hkey & H). exists key. split.
    + apply filterStep_member. by exists entry, doc.
    + rewrite Horder. apply list_elem_of_fmap. exists (key, entry). split; [done|].
      by apply elem_of_map_to_list.
Qed.

(** X13: two runs of the category stage on the same input map that traverse
    it in different orders write the same entries to "adjectives.json" and
    the same entries to "verbs.json", each as often, only in a different
    order. *)
Theorem X13_category_files_equal_up_to_order
    (inputMap : gmap string LemmaInput) (order1 order2 : list string)
    (adjs1 adjs2 : list AdjectiveEntry) (vbs1 vbs2 : list verbJSON) :
  isRangeOrder inputMap order1 → isRangeOrder inputMap order2 →
  main inputMap order1
    = Ok [("adjectives.json", AdjectiveFile adjs1); ("verbs.json", VerbFile vbs1)] →
  main inputMap order2
    = Ok [("adjectives.json", AdjectiveFile adjs2); ("verbs.json", VerbFile vbs2)] →
  adjs1 ≡ₚ adjs2 ∧ vbs1 ≡ₚ vbs2.
Proof.
  intros H1 H2. unfold CategoryStage.main, saveAdjectivesJSON, saveVerbsJSON.
  assert (Hperm : FilterLemmasByOrdklass inputMap order1
                  ≡ₚ FilterLemmasByOrdklass inputMap order2).
  { rewrite !Filter_bind. apply bind_Permutation. by rewrite H1, H2. }
  destruct (classifyAll_Ok (FilterLemmasByOrdklass inputMap order1)
              {| nouns := []; verbs := []; adjectives := [] |}
              (Filter_parses inputMap order1)) as (acc1 & -> & Hv1 & Ha1).
  destruct (classifyAll_Ok (FilterLemmasByOrdklass inputMap order2)
              {| nouns := []; verbs := []; adjectives := [] |}
              (Filter_parses inputMap order2)) as (acc2 & -> & Hv2 & Ha2).
  intros [= <- <-] [= <- <-]. rewrite Hv1, Hv2, Ha1, Ha2. simpl.
  split; apply fmap_Permutation, bind_Permutation, Hperm.
Qed.

End WithParser.

Lemma X11_filter_witness :
  Samples.renderNode adverbGarna
  ∈ CategoryStage.FilterLemmasByOrdklass sampleParser mixedLemmas ["3"; "1"; "2"; "4"].
Proof.
  apply (X11_filter_keeps_allowed_classes sampleParser mixedLemmas
           ["3"; "1"; "2"; "4"] (Samples.renderNode adverbGarna)); [by vm_compute|].
  exists "2", (lemmaInput 1 adverbGarna), adverbGarna.
  split; [by vm_compute|]. split; [done|]. split; [by vm_compute|].
  vm_compute. repeat constructor.
Defined.

Lemma X13_category_files_witness :
  ∃ adjs1 vbs1 adjs2 vbs2,
    CategoryStage.main sampleParser twoVerbs ["1"; "2"]
      = Ok [("adjectives.json", AdjectiveFile adjs1); ("verbs.json", VerbFile vbs1)]
    ∧ CategoryStage.main sampleParser twoVerbs ["2"; "1"]
      = Ok [("adjectives.json", AdjectiveFile adjs2); ("verbs.json", VerbFile vbs2)]
    ∧ adjs1 ≡ₚ adjs2 ∧ vbs1 ≡ₚ vbs2.
Proof.
  eexists _, _, _, _. split; [by vm_compute|]. split; [by vm_compute|].
  apply (X13_category_files_equal_up_to_order sampleParser twoVerbs
           ["1"; "2"] ["2"; "1"]); [by vm_compute| |by vm_compute|by vm_compute].
  unfold isRangeOrder. vm_compute. apply perm_swap.
Defined.

End FilterFacts.

(** ** More on the dispatchers, the pool and the assembling loops *)

Module PipelineExtras.
Import GoInt goquery Pipeline Expected WorkerPool Reading Samples.
Import IntFacts SortFacts PoolFacts DispatchFacts WorkerFacts AssemblyFacts PipelineFacts.

Lemma flatten_dispatch_position (decoder : Decoder) (i : Z) (job : Job) :
  0 ≤ i → i + Z.of_nat (length decoder) ≤ maxInt →
  job ∈ FlattenStage.dispatch i decoder →
  ∃ p : nat, i ≤ Index job ≤ i + Z.of_nat p
             ∧ decoder !! p = Some (Decodable (Data job)).
Proof.
  remember (length decoder) as n eqn:Hn. revert decoder i Hn.
  induction n as [n IH] using lt_wf_ind. intros decoder i -> Hi Hlen.
  destruct decoder as [|[entry|err] decoder].
  - by intros ?%elem_of_nil.
  - simpl in *. rewrite incr_small by (pose proof minInt_neg; lia).
    intros [->|Hj]%elem_of_cons.
    + exists 0%nat. simpl. split; [lia|done].
    + destruct (IH (length decoder) ltac:(lia) decoder (i + 1) eq_refl
                  ltac:(lia) ltac:(lia) Hj) as (p & Hp & Hl).
      exists (S p). split; [lia|done].
  - simpl in *. rewrite incr_small by (pose proof minInt_neg; lia).
    destruct decoder as [|skipped decoder]; [by intros ?%elem_of_nil|].
    simpl in *. intros Hj.
    destruct (IH (length decoder) ltac:(lia) decoder (i + 1) eq_refl
                ltac:(lia) ltac:(lia) Hj) as (p & Hp & Hl).
    exists (S (S p)). split; [lia|done].
Qed.

(** *** The dispatch loops round by round *)

(** On an array of complete values either loop has ended after one round
    per element, and has sent the jobs [dispatch] lists. *)
Lemma cleanLoop_complete (input : Decoder) (fuel : nat) (index : Z) :
  (length input < fuel)%nat →
  Stream.cleanLoop fuel index (Stream.complete input)
  = Some (CleanStage.dispatch index input).
Proof.
  revert fuel index.
  induction input as [|[entry|err] input IH]; intros [|fuel] index Hf;
    simpl in Hf; try lia; [done| |].
  - cbn. unfold Stream.complete in IH. by rewrite IH by lia.
  - cbn. unfold Stream.complete in IH. by rewrite IH by lia.
Qed.

Lemma flattenLoop_complete (input : Decoder) (fuel : nat) (index : Z) :
  (length input < fuel)%nat →
  Stream.flattenLoop fuel index (Stream.complete input)
  = Some (FlattenStage.dispatch index input).
Proof.
  remember (length input) as n eqn:Hn. revert input fuel index Hn.
  induction n as [n IH] using lt_wf_ind. intros input [|fuel] index -> Hf; [lia|].
  destruct input as [|[entry|err] input]; [done| |].
  - cbn. simpl in Hf. unfold Stream.complete in IH.
    by rewrite (IH (length input)) by (simpl; lia).
  - cbn. simpl in Hf. destruct input as [|skipped input].
    + destruct fuel; [lia|done].
    + cbn. simpl in Hf. unfold Stream.complete in IH.
      by rewrite (IH (length input)) by (simpl; lia).
Qed.

(** Text that is no JSON value stays ahead of the decoder, so neither loop
    ends, however many rounds it is given. *)
Lemma cleanLoop_broken (fuel : nat) (index : Z) (decoder : Stream.Stream) :
  existsb Stream.isBroken decoder = true → Stream.cleanLoop fuel index decoder = None.
Proof.
  revert index decoder. induction fuel as [|fuel IH]; intros index decoder Hb; [done|].
  destruct decoder as [|[[entry|err]|err] decoder]; [done| | |].
  - cbn. by rewrite IH.
  - cbn. by rewrite IH.
  - cbn. by rewrite IH.
Qed.

Lemma DecodeRaw_broken (decoder : Stream.Stream) :
  existsb Stream.isBroken decoder = true →
  existsb Stream.isBroken (Stream.DecodeRaw decoder) = true.
Proof. by destruct decoder as [|[element|err] decoder]. Qed.

Lemma flattenLoop_broken (fuel : nat) (index : Z) (decoder : Stream.Stream) :
  existsb Stream.isBroken decoder = true → Stream.flattenLoop fuel index decoder = None.
Proof.
  revert index decoder. induction fuel as [|fuel IH]; intros index decoder Hb; [done|].
  destruct decoder as [|[[entry|err]|err] decoder]; [done| | |].
  - cbn. by rewrite IH.
  - cbn -[Stream.DecodeRaw]. by rewrite IH by by apply DecodeRaw_broken.
  - cbn -[Stream.DecodeRaw]. by rewrite IH by by apply DecodeRaw_broken.
Qed.

(** X1: the dispatcher of the clean stage sends a job for an element of the
    input array exactly when the element decodes, with the position of the
    element as index, and sends the jobs in increasing order of index. *)
Theorem X1_clean_dispatch_by_position (input : Decoder) :
  Z.of_nat (length input) ≤ maxInt →
  (∀ job, job ∈ CleanStage.dispatch 0 input
          ↔ 0 ≤ Index job
            ∧ input !! Z.to_nat (Index job) = Some (Decodable (Data job)))
  ∧ StronglySorted Z.lt (Index <$> CleanStage.dispatch 0 input).
Proof.
  intros Hlen. split.
  - intros job. rewrite clean_dispatch_member by lia. by rewrite Z.sub_0_r.
  - by apply clean_dispatch_increasing.
Qed.

Lemma X1_clean_dispatch_witness :
  {| Index := 2; Data := entryOf articleOne |} ∈ CleanStage.dispatch 0 badFirst.
Proof.
  apply (proj1 (X1_clean_dispatch_by_position badFirst ltac:(by vm_compute))).
  split; [done|reflexivity].
Defined.

(** X2: on an input array in which every element decodes, the dispatcher
    of the flatten stage sends the same jobs as that of the clean stage. *)
Theorem X2_flatten_dispatch_on_decodable_input (input : Decoder) (index : Z) :
  Forall (λ element, ∃ entry, element = Decodable entry) input →
  FlattenStage.dispatch index input = CleanStage.dispatch index input.
Proof.
  intros H. revert index. induction H as [|element input [entry ->] _ IH];
    intros index; [done|].
  simpl. by rewrite IH.
Qed.

Lemma X2_flatten_dispatch_witness :
  FlattenStage.dispatch 0 threeEntries = CleanStage.dispatch 0 threeEntries.
Proof.
  apply (X2_flatten_dispatch_on_decodable_input threeEntries 0).
  repeat constructor; by eexists.
Defined.

(** X3: whatever the input array holds, the dispatcher of the flatten stage
    sends jobs with strictly increasing indices, and every job carries an
    entry of the array whose position is at or behind the job's index: the
    index may fall behind the position but never runs ahead of it, and no
    two jobs share an index. *)
Theorem X3_flatten_dispatch_indices (input : Decoder) :
  Z.of_nat (length input) ≤ maxInt →
  StronglySorted Z.lt (Index <$> FlattenStage.dispatch 0 input)
  ∧ ∀ job, job ∈ FlattenStage.dispatch 0 input →
           ∃ p : nat, 0 ≤ Index job ≤ Z.of_nat p
                      ∧ input !! p = Some (Decodable (Data job)).
Proof.
  intros Hlen. split.
  - by apply flatten_dispatch_increasing.
  - intros job Hj.
    destruct (flatten_dispatch_position input 0 job) as (p & Hp & Hl); [lia..|done|].
    exists p. split; [lia|done].
Qed.

Lemma X3_flatten_dispatch_witness :
  StronglySorted Z.lt (Index <$> FlattenStage.dispatch 0 badFirst)
  ∧ ∀ job, job ∈ FlattenStage.dispatch 0 badFirst →
           ∃ p : nat, 0 ≤ Index job ≤ Z.of_nat p
                      ∧ badFirst !! p = Some (Decodable (Data job)).
Proof. apply (X3_flatten_dispatch_indices badFirst). by vm_compute. Defined.

Section WithParser.

Variable NewDocumentFromReader : string → result Node.
Variable Render : Node → result string.

Local Abbreviation cleanWorker := (CleanStage.worker NewDocumentFromReader Render).
Local Abbreviation flattenWorker := (FlattenStage.worker NewDocumentFromReader Render).

(** X4: in every complete run of the pool, under any schedule, with any
    number of workers and any channel size, the collector ends up with
    exactly the results of the jobs whose worker reported no error, each
    once, in some order: a failing job loses only its own result. *)
Theorem X4_collector_keeps_every_success
    (cap numWorkers : nat) (all : list Job) (schedule : list Action) :
  (∀ st, run cleanWorker CleanStage.failed cap schedule (initial numWorkers all)
         = Some st →
         finished st = true →
         collectedResults st
         ≡ₚ filter (λ res, CleanStage.Error res = None) (all ≫= cleanWorker))
  ∧ (∀ st, run flattenWorker FlattenStage.failed cap schedule (initial numWorkers all)
           = Some st →
           finished st = true →
           collectedResults st
           ≡ₚ filter (λ res, FlattenStage.Error res = None) (all ≫= flattenWorker)).
Proof.
  split; intros st Hrun Hfin.
  - rewrite (run_collects _ _ _ _ _ _ _ Hrun Hfin).
    erewrite list_filter_iff; [done|]. intros res. unfold CleanStage.failed.
    by destruct (CleanStage.Error res).
  - rewrite (run_collects _ _ _ _ _ _ _ Hrun Hfin).
    erewrite list_filter_iff; [done|]. intros res. unfold FlattenStage.failed.
    by destruct (FlattenStage.Error res).
Qed.

(** X5: on an input array that holds complete JSON values only, both
    pipelines can run to their end, for every value [runtime.NumCPU] may
    report, zero and negative values included: the dispatch loop ends
    after one round per element, having sent the jobs listed by [dispatch],
    and with these jobs handled one after the other by the first worker the
    pool never blocks.  On an input in which text that is no JSON value
    stands ahead of a closing bracket, the dispatch loop of neither
    pipeline ever ends: no number of rounds suffices. *)
Theorem X5_pipelines_run_to_completion
    (NumCPU : Z) (input : Decoder) (decoder : Stream.Stream) :
  ((∀ fuel, (length input < fuel)%nat →
      Stream.cleanLoop fuel 0 (Stream.complete input)
      = Some (CleanStage.dispatch 0 input)
      ∧ Stream.flattenLoop fuel 0 (Stream.complete input)
        = Some (FlattenStage.dispatch 0 input))
   ∧ (∃ out,
        CleanStage.main NewDocumentFromReader Render NumCPU input
          (sequentialSchedule cleanWorker (CleanStage.dispatch 0 input)) = Some out)
   ∧ (∃ out,
        FlattenStage.main NewDocumentFromReader Render NumCPU input
          (sequentialSchedule flattenWorker (FlattenStage.dispatch 0 input)) = Some out))
  ∧ (existsb Stream.isBroken decoder = true →
     ∀ fuel index,
       Stream.cleanLoop fuel index decoder = None
       ∧ Stream.flattenLoop fuel index decoder = None).
Proof.
  split; [split; [|split]|].
  - intros fuel Hf. split; [by apply cleanLoop_complete|by apply flattenLoop_complete].
  - destruct (sequential_run_finishes cleanWorker CleanStage.failed
                (Z.to_nat channelBufferSize) (Z.to_nat (workerCount NumCPU))
                (CleanStage.dispatch 0 input)) as (st & Hrun & Hfin).
    { apply workerCount_pos. } { unfold channelBufferSize. lia. }
    eexists. unfold CleanStage.main. by rewrite Hrun, Hfin.
  - destruct (sequential_run_finishes flattenWorker FlattenStage.failed
                (Z.to_nat channelBufferSize) (Z.to_nat (workerCount NumCPU))
                (FlattenStage.dispatch 0 input)) as (st & Hrun & Hfin).
    { apply workerCount_pos. } { unfold channelBufferSize. lia. }
    eexists. unfold FlattenStage.main. by rewrite Hrun, Hfin.
  - intros Hb fuel index. split; [by apply cleanLoop_broken|by apply flattenLoop_broken].
Qed.

(** X6: the output of either pipeline is a function of the input array
    alone: two complete runs on the same input, under different schedules
    and with different numbers of workers, hand the same map to the
    encoder. *)
Theorem X6_output_independent_of_schedule
    (NumCPU1 NumCPU2 : Z) (input : Decoder) (schedule1 schedule2 : list Action) :
  Z.of_nat (length input) ≤ maxInt →
  (∀ out1 out2,
     CleanStage.main NewDocumentFromReader Render NumCPU1 input schedule1 = Some out1 →
     CleanStage.main NewDocumentFromReader Render NumCPU2 input schedule2 = Some out2 →
     out1 = out2)
  ∧ (∀ out1 out2,
       FlattenStage.main NewDocumentFromReader Render NumCPU1 input schedule1 = Some out1 →
       FlattenStage.main NewDocumentFromReader Render NumCPU2 input schedule2 = Some out2 →
       out1 = out2).
Proof.
  intros Hlen. split; intros out1 out2 H1 H2.
  - rewrite (clean_main_assembles _ _ _ _ _ _ Hlen H1).
    by rewrite (clean_main_assembles _ _ _ _ _ _ Hlen H2).
  - rewrite (flatten_main_assembles _ _ _ _ _ _ Hlen H1).
    by rewrite (flatten_main_assembles _ _ _ _ _ _ Hlen H2).
Qed.

End WithParser.

Lemma X4_collector_witness :
  ∃ st,
    run (FlattenStage.worker sampleParser sampleRender) FlattenStage.failed 100
      outOfOrder (initial 2 (FlattenStage.dispatch 0 threeEntries)) = Some st
    ∧ collectedResults st
      ≡ₚ filter (λ res, FlattenStage.Error res = None)
           (FlattenStage.dispatch 0 threeEntries
              ≫= FlattenStage.worker sampleParser sampleRender).
Proof.
  eexists. split; [by vm_compute|].
  apply (proj2 (X4_collector_keeps_every_success sampleParser sampleRender 100 2
                  (FlattenStage.dispatch 0 threeEntries) outOfOrder));
    by vm_compute.
Defined.

Lemma X5_pipelines_witness :
  Stream.flattenLoop 4 0 (Stream.complete badFirst)
  = Some [{| Index := 1; Data := entryOf articleOne |}]
  ∧ Stream.cleanLoop 1000 0 missingComma = None.
Proof.
  destruct (X5_pipelines_run_to_completion sampleParser sampleRender 1
              badFirst missingComma) as [(Hloop & _) Hbroken].
  split.
  - apply (Hloop 4%nat). simpl. lia.
  - apply (Hbroken eq_refl 1000%nat 0).
Defined.

Lemma X6_output_independent_witness :
  FlattenStage.main sampleParser sampleRender 2 threeEntries outOfOrder
  = FlattenStage.main sampleParser sampleRender 1 threeEntries
      (sequentialSchedule (FlattenStage.worker sampleParser sampleRender)
         (FlattenStage.dispatch 0 threeEntries)).
Proof.
  destruct (FlattenStage.main sampleParser sampleRender 2 threeEntries outOfOrder)
    as [out1|] eqn:E1; [|by vm_compute in E1].
  destruct (FlattenStage.main sampleParser sampleRender 1 threeEntries
              (sequentialSchedule (FlattenStage.worker sampleParser sampleRender)
                 (FlattenStage.dispatch 0 threeEntries)))
    as [out2|] eqn:E2; [|by vm_compute in E2].
  f_equal.
  apply (proj2 (X6_output_independent_of_schedule sampleParser sampleRender 2 1
                  threeEntries outOfOrder _ ltac:(by vm_compute)) out1 out2 E1 E2).
Defined.

End PipelineExtras.

(** ** Counts and payloads *)

Module CountFacts.
Import GoInt goquery Pipeline Expected WorkerPool Reading Samples.
Import IntFacts AssemblyFacts PipelineFacts.

Lemma numbered_size {V : Type} (values : list V) (m : gmap Z V) :
  (∀ k, m !! k = numbered values k) → size m = length values.
Proof.
  intros Hm. rewrite <-size_dom.
  assert (Hdom : dom m = list_to_set (seqZ 1 (Z.of_nat (length values)))).
  { apply set_eq. intros k.
    rewrite elem_of_dom, Hm, numbered_is_Some, elem_of_list_to_set, elem_of_seqZ.
    lia. }
  rewrite Hdom, size_list_to_set by apply NoDup_seqZ. rewrite length_seqZ. lia.
Qed.

Lemma lemmaEntries_length (rs : list FlattenStage.Result) :
  length (lemmaEntries rs) = length (rs ≫= FlattenStage.LemmaHTMLs).
Proof.
  unfold lemmaEntries. induction rs as [|res rs IH]; [done|].
  rewrite !bind_cons, !length_app, length_fmap. by f_equal.
Qed.

(** The inner loop of the flatten stage adds one entry per lemma under
    fresh keys and moves both counters on by the number of lemmas. *)
Lemma lemmaEntry_counts (familyID : Z) (hs : list string)
    (m : gmap Z FlattenStage.LemmaOutput) (key total : Z) :
  0 ≤ key → 0 ≤ total →
  key + Z.of_nat (length hs) ≤ maxInt → total + Z.of_nat (length hs) ≤ maxInt →
  (∀ k, key ≤ k → m !! k = None) →
  ∃ m', foldl (FlattenStage.lemmaEntry familyID) (m, key, total) hs
        = (m', key + Z.of_nat (length hs), total + Z.of_nat (length hs))
        ∧ size m' = (size m + length hs)%nat
        ∧ ∀ k, key + Z.of_nat (length hs) ≤ k → m' !! k = None.
Proof.
  revert m key total.
  induction hs as [|h hs IH]; intros m key total Hk Ht Hkl Htl Hfresh.
  - exists m. simpl. rewrite !Z.add_0_r. split; [done|]. split; [lia|].
    intros k Hle. apply Hfresh. lia.
  - simpl in *. rewrite !incr_small by (pose proof minInt_neg; lia).
    destruct (IH (<[key := {| FlattenStage.HTML := h; FlattenStage.FamilyID := familyID |}]> m)
                (key + 1) (total + 1)) as (m' & -> & Hsize & Hfresh'); [lia..| |].
    { intros k Hle. rewrite lookup_insert_ne by lia. apply Hfresh. lia. }
    exists m'. split; [f_equal; [f_equal|]; lia|]. split.
    + rewrite Hsize, map_size_insert_None by (apply Hfresh; lia). lia.
    + intros k Hle. apply Hfresh'. lia.
Qed.

Lemma assembleStep_counts (rs : list FlattenStage.Result)
    (m : gmap Z FlattenStage.LemmaOutput) (key total : Z) :
  let n := length (rs ≫= FlattenStage.LemmaHTMLs) in
  0 ≤ key → 0 ≤ total →
  key + Z.of_nat n ≤ maxInt → total + Z.of_nat n ≤ maxInt →
  (∀ k, key ≤ k → m !! k = None) →
  ∃ m', foldl FlattenStage.assembleStep (m, key, total) rs
        = (m', key + Z.of_nat n, total + Z.of_nat n)
        ∧ size m' = (size m + n)%nat.
Proof.
  revert m key total.
  induction rs as [|res rs IH]; intros m key total n Hk Ht Hkl Htl Hfresh.
  - exists m. simpl. subst n. simpl. rewrite !Z.add_0_r. split; [done|lia].
  - subst n. rewrite bind_cons, length_app in *. cbn [foldl].
    unfold FlattenStage.assembleStep at 2.
    destruct (lemmaEntry_counts (wrap (FlattenStage.Index res + 1))
                (FlattenStage.LemmaHTMLs res) m key total)
      as (m1 & -> & Hsize1 & Hfresh1); [lia..|done|].
    destruct (IH m1 (key + Z.of_nat (length (FlattenStage.LemmaHTMLs res)))
                (total + Z.of_nat (length (FlattenStage.LemmaHTMLs res))))
      as (m' & -> & Hsize'); [lia..|done|].
    exists m'. split; [f_equal; [f_equal|]; lia|lia].
Qed.

(** X7: when the assembling loops of the flatten stage end, the counter
    [totalLemmasProcessed] that the program reports is the number of
    entries of [finalOutput], which is the number of lemmas of all
    collected results, and [outputKey] is one more: no key is used twice
    and no lemma is lost, whatever indices the results carry. *)
Theorem X7_flatten_counters (rs : list FlattenStage.Result) :
  let n := length (rs ≫= FlattenStage.LemmaHTMLs) in
  Z.of_nat n < maxInt →
  ∃ finalOutput,
    foldl FlattenStage.assembleStep (∅, 1, 0) rs
    = (finalOutput, Z.of_nat n + 1, Z.of_nat n)
    ∧ size finalOutput = n.
Proof.
  intros n Hn.
  destruct (assembleStep_counts rs ∅ 1 0) as (m' & Hfold & Hsize); [lia..|done|].
  fold n in Hfold, Hsize. exists m'. rewrite Hfold. split.
  - replace (1 + Z.of_nat n) with (Z.of_nat n + 1) by lia. by rewrite Z.add_0_l.
  - by rewrite Hsize, map_size_empty.
Qed.

Lemma X7_flatten_counters_witness :
  ∃ finalOutput,
    foldl FlattenStage.assembleStep (∅, 1, 0)
      [{| FlattenStage.Index := 5; FlattenStage.LemmaHTMLs := ["a"; "b"];
          FlattenStage.Error := None |};
       {| FlattenStage.Index := 5; FlattenStage.LemmaHTMLs := [];
          FlattenStage.Error := None |};
       {| FlattenStage.Index := 2; FlattenStage.LemmaHTMLs := ["c"];
          FlattenStage.Error := None |}]
    = (finalOutput, 4, 3)
    ∧ size finalOutput = 3%nat.
Proof.
  apply (X7_flatten_counters
           [{| FlattenStage.Index := 5; FlattenStage.LemmaHTMLs := ["a"; "b"];
               FlattenStage.Error := None |};
            {| FlattenStage.Index := 5; FlattenStage.LemmaHTMLs := [];
               FlattenStage.Error := None |};
            {| FlattenStage.Index := 2; FlattenStage.LemmaHTMLs := ["c"];
               FlattenStage.Error := None |}]).
  by vm_compute.
Defined.

Section WithParser.

Variable NewDocumentFromReader : string → result Node.
Variable Render : Node → result string.

Lemma lemmaStep_appends (sel : list Located) (acc : list string) :
  Each sel (FlattenStage.lemmaStep Render) acc = acc ++ omap (rendered Render) sel.
Proof.
  unfold Each. revert acc. induction sel as [|x sel IH]; intros acc.
  - by rewrite app_nil_r.
  - cbn [foldl]. rewrite IH.
    assert (Hr : rendered Render x
                 = match Html Render [x] with Ok html => Some html | Err _ => None end)
      by reflexivity.
    change (omap (rendered Render) (x :: sel))
      with (match rendered Render x with
            | Some y => y :: omap (rendered Render) sel
            | None => omap (rendered Render) sel
            end).
    unfold FlattenStage.lemmaStep.
    destruct (Html Render [x]); rewrite Hr; [by rewrite <-app_assoc|done].
Qed.

(** X14: for a document that parses and has a [div.article], the worker of
    the flatten stage reports success, and its payload holds the inner
    HTML of the [div.lemma] elements below the first [div.article], in
    document order, leaving out exactly the lemmas whose rendering fails:
    a lemma that cannot be rendered does not fail the document. *)
Theorem X14_flatten_payload (job : Job) (doc : Node) :
  NewDocumentFromReader (HTML (Data job)) = Ok doc →
  Length (Find (document doc) div_article) ≠ 0 →
  FlattenStage.worker NewDocumentFromReader Render job
  = [{| FlattenStage.Index := Index job;
        FlattenStage.LemmaHTMLs :=
          omap (rendered Render)
            (Find (First (Find (document doc) div_article)) div_lemma);
        FlattenStage.Error := None |}].
Proof.
  intros Hdoc Harticle. unfold FlattenStage.worker. rewrite Hdoc. cbv beta iota zeta.
  destruct (Z.eqb_spec (Length (Find (document doc) div_article)) 0); [done|].
  by rewrite lemmaStep_appends.
Qed.

(** X15: in a complete run the clean stage writes one entry per dispatched
    job whose worker reported no error, and the flatten stage one entry per
    lemma of those jobs: the number of entries is the number of jobs minus
    the failed ones, resp. the number of their lemmas. *)
Theorem X15_output_sizes (NumCPU : Z) (input : Decoder) (schedule : list Action) :
  Z.of_nat (length input) < maxInt →
  (∀ out,
     CleanStage.main NewDocumentFromReader Render NumCPU input schedule = Some out →
     size out = length (cleanResults NewDocumentFromReader Render input))
  ∧ (∀ out,
       Z.of_nat (length (lemmaEntries (flattenResults NewDocumentFromReader Render input)))
         < maxInt →
       FlattenStage.main NewDocumentFromReader Render NumCPU input schedule = Some out →
       size out
       = length (flattenResults NewDocumentFromReader Render input
                   ≫= FlattenStage.LemmaHTMLs)).
Proof.
  intros Hlen. split.
  - intros out Hmain.
    rewrite (numbered_size (CleanStage.CleanedHTML
                              <$> cleanResults NewDocumentFromReader Render input)).
    + apply length_fmap.
    + by apply (clean_output_in_input_order _ _ NumCPU input schedule).
  - intros out Hn Hmain.
    rewrite (numbered_size (lemmaEntries (flattenResults NewDocumentFromReader Render input))).
    + apply lemmaEntries_length.
    + intros k.
      rewrite (flatten_main_assembles _ _ _ _ _ _ (Z.lt_le_incl _ _ Hlen) Hmain).
      apply flatten_assemble_numbered; [apply flattenResults_bounds; lia|done].
Qed.

End WithParser.

Lemma X14_flatten_payload_witness :
  FlattenStage.worker pickyParser pickyRender {| Index := 4; Data := entryOf articleThree |}
  = [{| FlattenStage.Index := 4; FlattenStage.LemmaHTMLs := ["bil"; "bila"];
        FlattenStage.Error := None |}].
Proof.
  apply (X14_flatten_payload pickyParser pickyRender
           {| Index := 4; Data := entryOf articleThree |} articleThree);
    by vm_compute.
Defined.

Lemma X15_output_sizes_witness :
  ∃ out,
    FlattenStage.main sampleParser sampleRender 2 threeEntries outOfOrder = Some out
    ∧ size out = 3%nat.
Proof.
  eexists. split; [by vm_compute|].
  apply (proj2 (X15_output_sizes sampleParser sampleRender 2 threeEntries outOfOrder
                  ltac:(by vm_compute))); by vm_compute.
Defined.

End CountFacts.

(** ** Records and the header above them *)

Module GroupFacts.
Import GoStrings goquery CategoryStage Grammar Reading StringFacts CategoryFacts WalkFacts.

Section Callback.

Variable f : Selection → rowState → rowState.
Variable yields : Located → bool.
Variable value : Selection → string.

Hypothesis f_appends :
  ∀ s acc ctx, f s (acc, ctx) = (acc ++ (f s ([], ctx)).1, (f s ([], ctx)).2).
Hypothesis f_header :
  ∀ s acc ctx, isHeader s = true → f s (acc, ctx) = (acc, headerLabel s).
Hypothesis f_value :
  ∀ r ctx, isHeader [r] = false →
           f [r] ([], ctx) = (if yields r then [value [r] +:+ "-" +:+ ctx] else [], ctx).

Lemma Each_values (vals : list Located) (ctx : string) :
  Forall (λ r, isHeader [r] = false) vals →
  Each vals f ([], ctx)
  = ((λ r, value [r] +:+ "-" +:+ ctx) <$> filter (λ r, yields r = true) vals, ctx).
Proof.
  induction 1 as [|r vals Hr _ IH]; [done|].
  change (Each (r :: vals) f ([], ctx)) with (Each vals f (f [r] ([], ctx))).
  rewrite (f_value r ctx Hr), (Each_appends f f_appends), IH, filter_cons. cbn [fst snd].
  destruct (yields r); [by rewrite decide_True by done|by rewrite decide_False by done].
Qed.

Lemma Each_group (pre : list Located) (h : Located) (vals rest : list Located) :
  isHeader [h] = true → Forall (λ r, isHeader [r] = false) vals →
  (Each (pre ++ h :: vals ++ rest) f ([], "")).1
  = (Each pre f ([], "")).1
    ++ ((λ r, value [r] +:+ "-" +:+ headerLabel [h])
          <$> filter (λ r, yields r = true) vals)
    ++ (Each rest f ([], headerLabel [h])).1.
Proof.
  intros Hh Hvals.
  assert (Happ : ∀ l1 l2 st, Each (l1 ++ l2) f st = Each l2 f (Each l1 f st))
    by (intros; apply foldl_app).
  rewrite Happ. destruct (Each pre f ([], "")) as [A c].
  change (Each (h :: vals ++ rest) f (A, c)) with (Each (vals ++ rest) f (f [h] (A, c))).
  rewrite (f_header [h] A c Hh), (Each_appends f f_appends), Happ.
  rewrite (Each_values vals _ Hvals), (Each_appends f f_appends). done.
Qed.

End Callback.

Lemma substantivRow_tagged (r : Located) (ctx : string) :
  isHeader [r] = false →
  substantivRow [r] ([], ctx)
  = (if substantivYields r then [substantivValue [r] +:+ "-" +:+ ctx] else [], ctx).
Proof.
  intros Hh. unfold substantivYields, substantivValue. rewrite Hh. cbn [negb andb].
  destruct (Z.eqb_spec (Length (cells [r])) 2) as [Hc|Hc].
  - rewrite substantivRow_value by done. by rewrite append_assoc.
  - by rewrite substantivRow_skip.
Qed.

Lemma verbRow_tagged (r : Located) (ctx : string) :
  isHeader [r] = false →
  verbRow [r] ([], ctx)
  = (if verbYields r then [verbValue [r] +:+ "-" +:+ ctx] else [], ctx).
Proof.
  intros Hh. unfold verbYields. rewrite Hh. cbn [negb andb].
  destruct (Z.eqb_spec (Length (cells [r])) 0) as [Hc|Hc].
  - by rewrite verbRow_skip.
  - by rewrite verbRow_value.
Qed.

Lemma adjektivRow_tagged (r : Located) (ctx : string) :
  isHeader [r] = false →
  adjektivRow [r] ([], ctx)
  = (if adjektivYields r then [adjektivValue [r] +:+ "-" +:+ ctx] else [], ctx).
Proof.
  intros Hh. unfold adjektivYields, adjektivValue. rewrite Hh. cbn [negb andb].
  destruct (Z.eqb_spec (Length (cells [r])) 1) as [Hc|Hc].
  - by rewrite adjektivRow_value.
  - by rewrite adjektivRow_skip.
Qed.

Lemma header_any (f : Selection → rowState → rowState) :
  f ∈ [substantivRow; verbRow; adjektivRow] →
  ∀ s acc ctx, isHeader s = true → f s (acc, ctx) = (acc, headerLabel s).
Proof. intros Hf s acc ctx Hh. by apply header_row. Qed.

(** X16: in every table, the value rows that stand between a header row
    and the next header row are recorded with the label of that header
    row, in row order, whatever stands before and behind them; the rows
    behind are walked with that label as context until another header row
    replaces it.  This holds for the noun, the verb and the adjective
    walk. *)
Theorem X16_records_carry_the_header_above
    (doc : Node) (pre : list Located) (h : Located) (vals rest : list Located) :
  Find (document doc) tabell_tr = pre ++ h :: vals ++ rest →
  isHeader [h] = true → Forall (λ r, isHeader [r] = false) vals →
  parseSubstantiv doc
    = (Each pre substantivRow ([], "")).1
      ++ ((λ r, substantivValue [r] +:+ "-" +:+ headerLabel [h])
            <$> filter (λ r, substantivYields r = true) vals)
      ++ (Each rest substantivRow ([], headerLabel [h])).1
  ∧ parseVerbForms doc
    = (Each pre verbRow ([], "")).1
      ++ ((λ r, verbValue [r] +:+ "-" +:+ headerLabel [h])
            <$> filter (λ r, verbYields r = true) vals)
      ++ (Each rest verbRow ([], headerLabel [h])).1
  ∧ parseAdjektiv doc
    = (Each pre adjektivRow ([], "")).1
      ++ ((λ r, adjektivValue [r] +:+ "-" +:+ headerLabel [h])
            <$> filter (λ r, adjektivYields r = true) vals)
      ++ (Each rest adjektivRow ([], headerLabel [h])).1.
Proof.
  intros Hrows Hh Hvals. unfold parseSubstantiv, parseVerbForms, parseAdjektiv.
  rewrite Hrows. split; [|split].
  - apply (Each_group substantivRow substantivYields substantivValue
             substantivRow_appends); [|apply substantivRow_tagged|done|done].
    apply header_any. repeat constructor.
  - apply (Each_group verbRow verbYields verbValue verbRow_appends);
      [|apply verbRow_tagged|done|done].
    apply header_any. repeat constructor.
  - apply (Each_group adjektivRow adjektivYields adjektivValue adjektivRow_appends);
      [|apply adjektivRow_tagged|done|done].
    apply header_any. repeat constructor.
Qed.

Lemma X16_records_witness :
  parseVerbForms Samples.verbFinita
  = [] ++ ["springer-presens aktiv-Finita former"; "springs-presens passiv-Finita former"]
       ++ ["springa-Infinita former"].
Proof.
  refine (proj1 (proj2 (X16_records_carry_the_header_above Samples.verbFinita []
            (Samples.rowAt Samples.verbFinita 0)
            [Samples.rowAt Samples.verbFinita 1; Samples.rowAt Samples.verbFinita 2]
            [Samples.rowAt Samples.verbFinita 3; Samples.rowAt Samples.verbFinita 4]
            eq_refl eq_refl _))).
  by repeat constructor.
Defined.

End GroupFacts.
